(** * youtube-dl-gui: the option compiler and the download-item record

    A shallow embedding of [youtube_dl_gui/parsers.py] ([OptionHolder],
    [OptionsParser]), of the helpers of [youtube_dl_gui/Utils.py] and, for
    the download item whose module is not among the sources, of the
    behaviour the specification words, run on the updates of
    [tests/test_ditem.py].

    Python data is modelled as follows.
    - A dictionary is a [gmap string value]; the dictionaries that the
      parser receives and copies live in a store indexed by references,
      so that [dict.copy()] and item assignment act on objects.
    - A value is [None], a [bool], an [int] or a unicode string.  Strings
      are [string]s whose characters are read as the code points 0..255.
      Floats and containers do not occur among the options the parser
      reads and are left out of [value].
    - An exception is a [KeyError] carrying the missing key, or
      [OtherError], which stands for every other exception the parser can
      raise (the [TypeError] of [+] on operands that are not both strings,
      the [AttributeError] of [.split] on something that is not a string,
      a failure inside a helper). *)

From Stdlib Require Import ZArith QArith Qround Ascii String.
From stdpp Require Import gmap strings list fin_maps pretty.

Local Open Scope string_scope.
Local Open Scope list_scope.
Local Open Scope Z_scope.

(** ** Python values *)

Inductive value : Type :=
  | VNone
  | VBool (b : bool)
  | VInt (n : Z)
  | VStr (s : string).

(** [bool(v)]. *)
Definition truthy (v : value) : bool :=
  match v with
  | VNone => false
  | VBool b => b
  | VInt n => negb (n =? 0)
  | VStr s => negb (String.eqb s "")
  end.

(** [a == b]: [bool] is a subtype of [int] and compares as 0 or 1; values
    of unrelated types are unequal. *)
Definition py_eq (a b : value) : bool :=
  match a, b with
  | VNone, VNone => true
  | VBool x, VBool y => Bool.eqb x y
  | VBool x, VInt n | VInt n, VBool x => n =? Z.b2z x
  | VInt n, VInt m => n =? m
  | VStr s, VStr t => String.eqb s t
  | _, _ => false
  end.

(** [a != b]. *)
Definition py_ne (a b : value) : bool := negb (py_eq a b).

(** [type(v) is bool]. *)
Definition type_is_bool (v : value) : bool :=
  match v with VBool _ => true | _ => false end.

(** ** Exceptions and the dictionary monad *)

Inductive exn : Type :=
  | KeyError (key : string)
  | OtherError.

Inductive result (A : Type) : Type :=
  | Ok (a : A)
  | Raise (e : exn).
Arguments Ok {A} a.
Arguments Raise {A} e.

(** A computation that reads and assigns the items of one dictionary
    object ([options_dict] in the source) and may raise.  Assignments made
    before an exception stay. *)
Definition dictM (A : Type) : Type :=
  gmap string value → gmap string value * result A.

Definition dret {A} (a : A) : dictM A := λ d, (d, Ok a).

Definition dbind {A B} (m : dictM A) (f : A → dictM B) : dictM B :=
  λ d, match m d with
       | (d', Ok a) => f a d'
       | (d', Raise e) => (d', Raise e)
       end.

Definition raise {A} (e : exn) : dictM A := λ d, (d, Raise e).

Notation "'let*' x := m 'in' k" := (dbind m (λ x, k))
  (at level 10, x name, m at level 100, k at level 200).
Notation "m ;;; k" := (dbind m (λ _, k))
  (at level 100, k at level 200, right associativity).

(** [options_dict[key]]. *)
Definition getitem (key : string) : dictM value :=
  λ d, match d !! key with
       | Some v => (d, Ok v)
       | None => (d, Raise (KeyError key))
       end.

(** [options_dict[key] = v]. *)
Definition setitem (key : string) (v : value) : dictM unit :=
  λ d, (<[key := v]> d, Ok tt).

(** A helper that returns no value raised something that is not a
    [KeyError]. *)
Definition helper {A} (o : option A) : dictM A :=
  match o with
  | Some a => dret a
  | None => raise OtherError
  end.

(** [[options_dict[k] for k in keys]]: the items are read left to right and
    the first missing key raises. *)
Fixpoint getitems (keys : list string) : dictM (list value) :=
  match keys with
  | [] => dret []
  | k :: ks =>
      let* v := getitem k in
      let* vs := getitems ks in
      dret (v :: vs)
  end.

(** ** Builtins on strings *)

(** [unicode.isspace] on the code points below 256. *)
Definition isspace (c : ascii) : bool :=
  let n := Ascii.N_of_ascii c in
  ((9 <=? n) && (n <=? 13) || (28 <=? n) && (n <=? 32)
   || (n =? 133) || (n =? 160))%N.

Definition flush (word : option string) : list string :=
  match word with
  | Some w => [w]
  | None => []
  end.

Definition extend (word : option string) (c : ascii) : option string :=
  match word with
  | Some w => Some (w +:+ String c "")
  | None => Some (String c "")
  end.

Fixpoint split_from (word : option string) (s : string) : list string :=
  match s with
  | EmptyString => flush word
  | String c s' =>
      if isspace c then flush word ++ split_from None s'
      else split_from (extend word c) s'
  end.

(** [s.split()]: the maximal runs of characters that are not whitespace. *)
Definition split (s : string) : list string := split_from None s.

(** [a + b] where [a] is already known to be a string. *)
Definition str_add (a : string) (b : value) : dictM string :=
  match b with
  | VStr t => dret (a +:+ t)
  | _ => raise OtherError
  end.

(** [a + b] on arbitrary values, as the parser uses it: string
    concatenation, anything else raises. *)
Definition py_add (a b : value) : dictM value :=
  match a with
  | VStr s => let* r := str_add s b in dret (VStr r)
  | _ => raise OtherError
  end.

(** [v.split()]. *)
Definition py_split (v : value) : dictM (list string) :=
  match v with
  | VStr s => dret (split s)
  | _ => raise OtherError
  end.

(** ** OptionHolder *)

Record OptionHolder : Type := mkOptionHolder {
  name : string;
  flag : string;
  default_value : value;
  requirements : option (list string)
}.

(** [OptionHolder.is_boolean] *)
Definition is_boolean (self : OptionHolder) : bool :=
  type_is_bool (default_value self).

(** [OptionHolder.check_requirements]: the list comprehension reads every
    required option before [any] looks at the values. *)
Definition check_requirements (self : OptionHolder) : dictM bool :=
  match requirements self with
  | None => dret true
  | Some reqs =>
      let* vs := getitems reqs in
      dret (existsb truthy vs)
  end.

(** ** OptionsParser *)

(** [OptionsParser._ydl_options], in declaration order. *)
Definition ydl_options : list OptionHolder := [
  mkOptionHolder "playlist_start" "--playlist-start" (VInt 1) None;
  mkOptionHolder "playlist_end" "--playlist-end" (VInt 0) None;
  mkOptionHolder "max_downloads" "--max-downloads" (VInt 0) None;
  mkOptionHolder "username" "-u" (VStr "") None;
  mkOptionHolder "password" "-p" (VStr "") None;
  mkOptionHolder "video_password" "--video-password" (VStr "") None;
  mkOptionHolder "retries" "-R" (VInt 10) None;
  mkOptionHolder "proxy" "--proxy" (VStr "") None;
  mkOptionHolder "user_agent" "--user-agent" (VStr "") None;
  mkOptionHolder "referer" "--referer" (VStr "") None;
  mkOptionHolder "ignore_errors" "-i" (VBool false) None;
  mkOptionHolder "write_description" "--write-description" (VBool false) None;
  mkOptionHolder "write_info" "--write-info-json" (VBool false) None;
  mkOptionHolder "write_thumbnail" "--write-thumbnail" (VBool false) None;
  mkOptionHolder "min_filesize" "--min-filesize" (VInt 0) None;
  mkOptionHolder "max_filesize" "--max-filesize" (VInt 0) None;
  mkOptionHolder "write_all_subs" "--all-subs" (VBool false) None;
  mkOptionHolder "write_auto_subs" "--write-auto-sub" (VBool false) None;
  mkOptionHolder "write_subs" "--write-sub" (VBool false) None;
  mkOptionHolder "keep_video" "-k" (VBool false) None;
  mkOptionHolder "restrict_filenames" "--restrict-filenames" (VBool false) None;
  mkOptionHolder "save_path" "-o" (VStr "") None;
  mkOptionHolder "embed_subs" "--embed-subs" (VBool false)
    (Some ["write_auto_subs"; "write_subs"]);
  mkOptionHolder "to_audio" "-x" (VBool false) None;
  mkOptionHolder "audio_format" "--audio-format" (VStr "") (Some ["to_audio"]);
  mkOptionHolder "video_format" "-f" (VStr "0") None;
  mkOptionHolder "subs_lang" "--sub-lang" (VStr "") (Some ["write_subs"]);
  mkOptionHolder "audio_quality" "--audio-quality" (VStr "5") (Some ["to_audio"])
].

(** ** The walk as the specification words it

    The definitions of this part follow the specification, not the source;
    the facts below compare them with the loop of [parse]. *)

(** [requirementsSatisfied]: no requirements declared, or any of the
    named options truthy in the configuration. *)
Definition requirementsSatisfied (entry : OptionHolder)
    (config : gmap string value) : bool :=
  match requirements entry with
  | None => true
  | Some reqs =>
      existsb (λ req, match config !! req with
                      | Some v => truthy v
                      | None => false
                      end) reqs
  end.

(** The keys the loop body reads for one entry, in reading order: every
    named prerequisite, then the entry's own name when the requirements are
    satisfied. *)
Definition keys_read (config : gmap string value) (entry : OptionHolder)
    : list string :=
  match requirements entry with
  | None => [name entry]
  | Some reqs =>
      reqs ++ (if requirementsSatisfied entry config then [name entry] else [])
  end.

(** The first of [keys] that the configuration does not bind. *)
Fixpoint first_missing (config : gmap string value) (keys : list string)
    : option string :=
  match keys with
  | [] => None
  | k :: ks =>
      match config !! k with
      | None => Some k
      | Some _ => first_missing config ks
      end
  end.

(** The values of the bound keys among [keys]. *)
Definition values_of (config : gmap string value) (keys : list string)
    : list value :=
  omap (λ k, config !! k) keys.

(** The keys the derivation steps assign. *)
Definition written : list string :=
  ["save_path"; "video_format"; "min_filesize"; "max_filesize"].

(** A computation is tame for a list of keys when it assigns only those
    keys, removes no key, and raises [KeyError] only for a key that is
    missing. *)
Definition tame (keys : list string) {A} (m : dictM A) : Prop :=
  ∀ d,
    (∀ k, k ∉ keys → (m d).1 !! k = d !! k)
    ∧ (∀ k, is_Some (d !! k) → is_Some ((m d).1 !! k))
    ∧ (∀ k, (m d).2 = Raise (KeyError k) → (m d).1 !! k = None).

(** [rebind key binding d]: [d] with [key] bound as [binding] says (bound
    to another value, or absent). *)
Definition rebind (key : string) (binding : option value)
    (d : gmap string value) : gmap string value :=
  partial_alter (λ _, binding) key d.

(** A computation ignores [key] at [d] when rebinding the key changes
    neither its result nor what it does to the other keys. *)
Definition ignores_at {A} (key : string) (m : dictM A)
    (d : gmap string value) : Prop :=
  ∀ binding,
    m (rebind key binding d) = (rebind key binding (m d).1, (m d).2).

Definition ignores {A} (key : string) (m : dictM A) : Prop :=
  ∀ d, ignores_at key m d.

(** The keys a call of [parse] reads in a configuration: six keys on every
    path, an auxiliary key when the step that uses it reaches it, every
    named prerequisite, and the name of every entry whose requirements are
    satisfied. *)
Inductive reads (config : gmap string value) : string → Prop :=
  | reads_always k :
      k ∈ ["save_path"; "output_format"; "video_format"; "min_filesize";
           "max_filesize"; "cmd_args"] →
      reads config k
  | reads_output_template fmt :
      config !! "output_format" = Some fmt →
      py_eq fmt (VStr "id") = false →
      py_eq fmt (VStr "title") = false →
      reads config "output_template"
  | reads_second_video_format first :
      config !! "video_format" = Some first →
      py_ne first (VStr "0") = true →
      reads config "second_video_format"
  | reads_min_filesize_unit size :
      config !! "min_filesize" = Some size →
      truthy size = true →
      reads config "min_filesize_unit"
  | reads_max_filesize_unit size :
      config !! "max_filesize" = Some size →
      truthy size = true →
      reads config "max_filesize_unit"
  | reads_prerequisite entry reqs k :
      entry ∈ ydl_options →
      requirements entry = Some reqs →
      k ∈ reqs →
      reads config k
  | reads_entry entry :
      entry ∈ ydl_options →
      requirementsSatisfied entry config = true →
      reads config (name entry).

(** A number or a truth value as a number; a truth value counts as 0 or
    1. *)
Definition as_number (v : value) : option Z :=
  match v with
  | VBool b => Some (Z.b2z b)
  | VInt n => Some n
  | VNone => None
  | VStr _ => None
  end.

(** Two values are the same value when both are nothing, or the same
    text, or the same number.  A value differs from a default when the two
    are not the same value. *)
Inductive same_value : value → value → Prop :=
  | same_none : same_value VNone VNone
  | same_text s : same_value (VStr s) (VStr s)
  | same_number a b n :
      as_number a = Some n → as_number b = Some n → same_value a b.

#[global] Instance value_eq_dec : EqDecision value.
Proof. solve_decision. Defined.

(** The file-naming template that [output_format] selects: the id-based
    template, the title-based template, otherwise the configured template
    string. *)
Definition naming_template (config : gmap string value) : option value :=
  match config !! "output_format" with
  | None => None
  | Some fmt =>
      if bool_decide (fmt = VStr "id") then Some (VStr "%(id)s.%(ext)s")
      else if bool_decide (fmt = VStr "title") then
        Some (VStr "%(title)s.%(ext)s")
      else config !! "output_template"
  end.

(** ** Instances of the helpers, for running the parser on examples *)

Definition startswith_slash (s : string) : bool :=
  match s with
  | String c _ => Ascii.eqb c "/"
  | EmptyString => false
  end.

Fixpoint endswith_slash (s : string) : bool :=
  match s with
  | EmptyString => false
  | String c EmptyString => Ascii.eqb c "/"
  | String _ s' => endswith_slash s'
  end.

(** [posixpath.join(a, b)]; a non-string argument raises. *)
Definition posix_join (a b : value) : option value :=
  match a, b with
  | VStr path, VStr b =>
      if startswith_slash b then Some (VStr b)
      else if String.eqb path "" || endswith_slash path then
        Some (VStr (path +:+ b))
      else Some (VStr (path +:+ "/" +:+ b))
  | _, _ => None
  end.

Fixpoint segments_from (seg : string) (s : string) : list string :=
  match s with
  | EmptyString => [seg]
  | String c s' =>
      if Ascii.eqb c "/" then seg :: segments_from "" s'
      else segments_from (seg +:+ String c "") s'
  end.

Fixpoint join_segments (segs : list string) : string :=
  match segs with
  | [] => ""
  | [seg] => seg
  | seg :: rest => seg +:+ "/" +:+ join_segments rest
  end.

(** Modelled from the spec: [utils.remove_shortcuts] is not among the
    sources; the specification has it strip the shortcut segments from the
    save path.  The segments of the path that are the home alias [~] are
    dropped; a path without such a segment is returned as it is.  A
    non-string argument raises. *)
Definition strip_shortcuts (path : value) : option value :=
  match path with
  | VStr p =>
      Some (VStr (join_segments
        (filter (λ seg, seg ≠ "~") (segments_from "" p))))
  | _ => None
  end.

(** Modelled from the spec: [utils.to_string] is not among the sources; the
    specification has it give the canonical string form of a value, here
    the text [str] prints. *)
Definition str_of_value (v : value) : string :=
  match v with
  | VNone => "None"
  | VBool true => "True"
  | VBool false => "False"
  | VInt n => pretty n
  | VStr s => s
  end.

(** A configuration in which every option of the schema has its default
    value. *)
Definition default_config : gmap string value :=
  list_to_map
    (map (λ o, (name o, default_value o)) ydl_options ++
     [("output_format", VStr "id");
      ("output_template", VStr "%(uploader)s/%(title)s.%(ext)s");
      ("second_video_format", VStr "0");
      ("min_filesize_unit", VStr "");
      ("max_filesize_unit", VStr "");
      ("cmd_args", VStr "")]).

(** The schema entry of the embed-subtitles option. *)
Definition embed_subs_option : OptionHolder :=
  mkOptionHolder "embed_subs" "--embed-subs" (VBool false)
    (Some ["write_auto_subs"; "write_subs"]).

(** The schema entry of the audio-format option. *)
Definition audio_format_option : OptionHolder :=
  mkOptionHolder "audio_format" "--audio-format" (VStr "") (Some ["to_audio"]).

(** An option holds its default value in a configuration when the
    configuration binds its name to a value equal ([==]) to the default. *)
Definition holds_default (config : gmap string value) (entry : OptionHolder)
    : bool :=
  match config !! name entry with
  | Some v => py_eq v (default_value entry)
  | None => false
  end.

(** [default_config] with the all-subtitles and embed-subtitles switches on. *)
Definition all_subs_config : gmap string value :=
  <["write_all_subs" := VBool true]>
    (<["embed_subs" := VBool true]> default_config).

(** [default_config] with the subtitles and embed-subtitles switches on. *)
Definition subs_config : gmap string value :=
  <["write_subs" := VBool true]>
    (<["embed_subs" := VBool true]> default_config).

(** [subs_config] without the automatic-subtitles switch. *)
Definition subs_only_config : gmap string value :=
  delete "write_auto_subs" subs_config.

(** [subs_config] without the passthrough arguments. *)
Definition no_cmd_args_subs_config : gmap string value :=
  delete "cmd_args" subs_config.

(** [default_config] without the output template, which the id format does
    not use. *)
Definition no_template_config : gmap string value :=
  delete "output_template" default_config.

(** [default_config] without the passthrough arguments. *)
Definition no_cmd_args_config : gmap string value :=
  delete "cmd_args" default_config.

(** A store holding one configuration. *)
Definition one_config_store : gmap positive (gmap string value) :=
  {[ 1%positive := default_config ]}.

(** * The download item

    [youtube_dl_gui/downloadmanager.py], which defines [DownloadItem], is
    not among the sources; only its test file [tests/test_ditem.py] is.
    The definitions of this part are modelled from the specification
    (sections 3 and 4.1), word for word, and run on the updates of the test
    file; where the test file expects something else than the words of the
    specification give, the specification is followed and the place says
    so.  Sizes are exact rationals, not floats.  An update is a mapping
    from field names to strings. *)

(** Modelled from the spec: the five stages of a [DownloadItem]. *)
Inductive Stage : Type := Queued | Active | Paused | Completed | Error.

(** Modelled from the spec: the failures of the download item. *)
Inductive failure : Type :=
  | InvalidStage
  | IllegalReset
  | MalformedInput
  | UnitParseError.

(** Modelled from the spec: the nine-field progress snapshot
    ([DownloadItem.progress_stats]). *)
Record stats : Type := mkStats {
  s_filename : string;
  s_extension : string;
  s_filesize : string;
  s_percent : string;
  s_speed : string;
  s_eta : string;
  s_status : string;
  s_playlist_size : string;
  s_playlist_index : string
}.

(** Modelled from the spec: the state of a [DownloadItem]; the identity is
    a function of [url] and [options] and is not stored. *)
Record DownloadItem : Type := mkDownloadItem {
  url : string;
  options : list string;
  path : string;
  filenames : list string;
  extensions : list string;
  filesizes : list Q;
  stage : Stage;
  progress_stats : stats
}.

(** Modelled from the spec: the snapshot at construction, [filename] the
    URL, everything else ["-"], ["0%"], ["Queued"] or empty, as
    [TestItemInit] expects. *)
Definition default_stats (url : string) : stats :=
  mkStats url "-" "-" "0%" "-" "-" "Queued" "" "".

(** Modelled from the spec: [DownloadItem(url, options)]. *)
Definition new_item (url : string) (options : list string) : DownloadItem :=
  mkDownloadItem url options "" [] [] [] Queued (default_stats url).

(** Modelled from the spec: [DownloadItem.reset], illegal while [Active]. *)
Definition reset (item : DownloadItem) : failure + DownloadItem :=
  match stage item with
  | Active => inl IllegalReset
  | _ =>
      inr (mkDownloadItem (url item) (options item) "" [] [] [] Queued
             (default_stats (url item)))
  end.

(** Modelled from the spec: the classification of a raw status; a status
    outside the three sets leaves the stage as it is. *)
Definition stage_of_status (status : string) (current : Stage) : Stage :=
  if bool_decide
       (status ∈ ["Pre Processing"; "Downloading"; "Post Processing"])
  then Active
  else if bool_decide (status ∈ ["Finished"; "Warning"; "Already Downloaded"])
  then Completed
  else if bool_decide (status ∈ ["Error"; "Stopped"; "Filesize Abort"])
  then Error
  else current.

(** *** Size strings *)

Definition FILESIZE_METRICS : list string :=
  ["B"; "KiB"; "MiB"; "GiB"; "TiB"; "PiB"; "EiB"; "ZiB"; "YiB"].

Definition digit_of (c : ascii) : option Z :=
  let n := Z.of_N (Ascii.N_of_ascii c) in
  if (48 <=? n) && (n <=? 57) then Some (n - 48) else None.

(** The decimal value of a string of digits, together with their number. *)
Fixpoint digits_from (acc : Z) (count : nat) (s : string) : option (Z * nat) :=
  match s with
  | EmptyString => Some (acc, count)
  | String c s' =>
      match digit_of c with
      | Some d => digits_from (10 * acc + d) (S count) s'
      | None => None
      end
  end.

(** The longest prefix of digits and points, and the rest. *)
Fixpoint span_numeral (s : string) : string * string :=
  match s with
  | EmptyString => ("", "")
  | String c s' =>
      if bool_decide (is_Some (digit_of c)) || Ascii.eqb c "."
      then let '(numeral, rest) := span_numeral s' in (String c numeral, rest)
      else ("", s)
  end.

(** The parts of a numeral before and after its first point. *)
Fixpoint split_point (s : string) : string * option string :=
  match s with
  | EmptyString => ("", None)
  | String c s' =>
      if Ascii.eqb c "." then ("", Some s')
      else
        let '(whole, fraction) := split_point s' in (String c whole, fraction)
  end.

(** A numeral [digits] or [digits.digits] as a rational. *)
Definition numeral_value (s : string) : option Q :=
  let '(whole, fraction) := split_point s in
  match whole, digits_from 0 0 whole with
  | String _ _, Some (w, _) =>
      match fraction with
      | None => Some (inject_Z w)
      | Some f =>
          match digits_from 0 0 f with
          | Some (n, count) =>
              Some (Qred (inject_Z w
                          + inject_Z n / inject_Z (10 ^ Z.of_nat count)))
          | None => None
          end
      end
  | _, _ => None
  end.

Fixpoint index_of (unit : string) (units : list string) : option nat :=
  match units with
  | [] => None
  | u :: rest =>
      if String.eqb u unit then Some 0%nat else S <$> index_of unit rest
  end.

(** Modelled from the spec: the byte count of a size string, a numeral
    followed by a binary unit suffix, base 1024; no value for a malformed
    string ([UnitParseError]). *)
Definition to_bytes (text : string) : option Q :=
  let '(numeral, unit) := span_numeral text in
  match numeral_value numeral, index_of unit FILESIZE_METRICS with
  | Some v, Some exponent =>
      Some (Qred (v * inject_Z (1024 ^ Z.of_nat exponent)))
  | _, _ => None
  end.

(** The sum of the recorded sizes. *)
Definition total (sizes : list Q) : Q :=
  Qred (foldr Qplus (inject_Z 0) sizes).

(** The largest exponent, at most [limit], whose power of 1024 does not
    exceed [bytes]. *)
Fixpoint exponent_of (bytes : Q) (limit : nat) : nat :=
  match limit with
  | O => O
  | S limit' =>
      if Qle_bool (inject_Z (1024 ^ Z.of_nat limit)) bytes then limit
      else exponent_of bytes limit'
  end.

Definition two_digits (n : Z) : string :=
  if n <? 10 then "0" +:+ pretty n else pretty n.

(** Modelled from the spec: the human-readable form of a byte count, the
    value in the largest fitting binary unit with two decimals, as in the
    text ["13.45MiB"] that [test_calc_post_proc_size] expects. *)
Definition format_bytes (bytes : Q) : string :=
  let exponent := exponent_of bytes 8 in
  let scaled := (bytes / inject_Z (1024 ^ Z.of_nat exponent))%Q in
  let hundredths := Qfloor (scaled * inject_Z 100 + Qmake 1 2)%Q in
  pretty (hundredths / 100) +:+ "." +:+ two_digits (hundredths mod 100)
  +:+ default "" (FILESIZE_METRICS !! exponent).

(** *** Updates *)

(** Modelled from the spec: a snapshot field after an update, the value of
    the update when the key is present and the value is not empty;
    otherwise the existing snapshot value is preserved, never overwritten
    with a blank. *)
Definition refresh (update : gmap string string) (key : string)
    (current : string) : string :=
  match update !! key with
  | None => current
  | Some "" => current
  | Some text => text
  end.

(** Modelled from the spec: a present [filename] or [extension] is appended
    to its sequence. *)
Definition append_field (update : gmap string string) (key : string)
    (sequence : list string) : list string :=
  match update !! key with
  | Some text => sequence ++ [text]
  | None => sequence
  end.

(** Replace the last element; an empty list stays empty. *)
Definition set_last {A} (x : A) (l : list A) : list A :=
  <[pred (length l) := x]> l.

(** Modelled from the spec: the recorded sizes after the [filesize] field
    of an update.  A size that parses is appended when the update also
    brings an extension (a new file began), and overwrites the last entry
    otherwise; a size that does not parse is set aside
    ([UnitParseError]). *)
Definition record_size (update : gmap string string) (sizes : list Q)
    : list Q :=
  match update !! "filesize" with
  | None => sizes
  | Some text =>
      match to_bytes text with
      | None => sizes
      | Some bytes =>
          if bool_decide (is_Some (update !! "extension"))
          then sizes ++ [bytes]
          else set_last bytes sizes
      end
  end.

(** Modelled from the spec: the post-merge step.  The last recorded size
    is replaced by the sum of all previously recorded sizes plus itself;
    no entry is added. *)
Definition merge_sizes (sizes : list Q) : list Q :=
  set_last (total sizes) sizes.

(** Modelled from the spec: [DownloadItem.update_stats] on a mapping of
    strings. *)
Definition update_stats (update : gmap string string) (item : DownloadItem)
    : DownloadItem :=
  let current := progress_stats item in
  let merging := bool_decide (update !! "status" = Some "Post Processing") in
  let recorded := record_size update (filesizes item) in
  let sizes := if merging then merge_sizes recorded else recorded in
  let filesize_text :=
    if merging then format_bytes (total recorded)
    else refresh update "filesize" (s_filesize current)
  in
  mkDownloadItem (url item) (options item)
    (default (path item) (update !! "path"))
    (append_field update "filename" (filenames item))
    (append_field update "extension" (extensions item))
    sizes
    (match update !! "status" with
     | Some status => stage_of_status status (stage item)
     | None => stage item
     end)
    (mkStats
       (refresh update "filename" (s_filename current))
       (refresh update "extension" (s_extension current))
       filesize_text
       (refresh update "percent" (s_percent current))
       (refresh update "speed" (s_speed current))
       (refresh update "eta" (s_eta current))
       (refresh update "status" (s_status current))
       (refresh update "playlist_size" (s_playlist_size current))
       (refresh update "playlist_index" (s_playlist_index current))).

(** *** The updates and items of the test file *)

(** The three updates of [TestUpdateStats.test_update_stats]. *)
Definition stats_first : gmap string string :=
  list_to_map
    [("filename", "somefilename"); ("extension", ".mp4");
     ("filesize", "9.45MiB"); ("percent", "2.0%"); ("speed", "200.00KiB/s");
     ("eta", "00:38"); ("status", "Downloading"); ("path", "/home/user");
     ("playlist_size", "10"); ("playlist_index", "1")].

Definition stats_second : gmap string string :=
  list_to_map
    [("filename", "someotherfilename"); ("extension", ".m4a");
     ("percent", "50.0%"); ("filesize", "2.00MiB"); ("playlist_index", "2")].

Definition stats_third : gmap string string :=
  list_to_map
    [("percent", "65.0%"); ("filesize", "2.00MiB"); ("playlist_index", "2")].

(** The update of [TestUpdateStats.test_update_stats_empty_strings]. *)
Definition stats_empty : gmap string string :=
  list_to_map
    [("filename", ""); ("extension", ""); ("filesize", ""); ("percent", "");
     ("speed", ""); ("eta", ""); ("status", ""); ("playlist_size", "");
     ("playlist_index", "")].

(** The three updates of [TestDownloadItemPrivate.test_calc_post_proc_size]:
    the video stream, the audio stream, and the post-processing report,
    which has no [filesize] field but names a file and an extension. *)
Definition stats_video : gmap string string :=
  list_to_map
    [("filename", "file.f123"); ("extension", ".webm");
     ("filesize", "10.00MiB"); ("percent", "75.0%");
     ("speed", "123.45KiB/s"); ("eta", "N/A"); ("status", "Downloading");
     ("path", "/home/user")].

Definition stats_audio : gmap string string :=
  list_to_map
    [("filename", "file.f456"); ("extension", ".m4a");
     ("filesize", "3.45MiB"); ("percent", "96.0%");
     ("speed", "222.22KiB/s"); ("eta", "N/A"); ("status", "Downloading");
     ("path", "/home/user")].

Definition stats_post_processing : gmap string string :=
  list_to_map
    [("filename", "file"); ("extension", ".webm"); ("percent", "100%");
     ("speed", ""); ("eta", ""); ("status", "Post Processing")].



(** The items of [TestReset.test_reset_completed_stage] and
    [TestReset.test_reset_active_stage] before the call. *)
Definition completed_item : DownloadItem :=
  mkDownloadItem "url" ["-f"; "flv"] "/home/user" ["file"] [".mp4"]
    [123456.00%Q] Completed
    (mkStats "file" ".mp4" "6.66MiB" "100%" "-" "00:00" "Finished" "" "").

Definition active_item : DownloadItem :=
  mkDownloadItem "url" ["-f"; "flv"] "/home/user" ["file1"] [".mp4"]
    [1234.00%Q] Active
    (mkStats "file1" ".mp4" "9.45MiB" "75.5%" "200.00KiB/s" "00:10"
       "Downloading" "" "").

(** ** Further notions for the facts about the parser *)

(** Every key a call of [parse] can read: the names of the schema and the
    six auxiliary keys. *)
Definition config_keys : list string :=
  map name ydl_options
  ++ ["output_format"; "output_template"; "second_video_format";
      "min_filesize_unit"; "max_filesize_unit"; "cmd_args"].

(** The auxiliary keys a call of [parse] does not get to in a
    configuration: the template under the [id] and [title] formats, the
    second format when the first is ['0'], a unit when its threshold is
    falsy. *)
Inductive skips (config : gmap string value) : string → Prop :=
  | skips_output_template fmt :
      config !! "output_format" = Some fmt →
      py_eq fmt (VStr "id") || py_eq fmt (VStr "title") = true →
      skips config "output_template"
  | skips_second_video_format first :
      config !! "video_format" = Some first →
      py_ne first (VStr "0") = false →
      skips config "second_video_format"
  | skips_min_filesize_unit size :
      config !! "min_filesize" = Some size →
      truthy size = false →
      skips config "min_filesize_unit"
  | skips_max_filesize_unit size :
      config !! "max_filesize" = Some size →
      truthy size = false →
      skips config "max_filesize_unit".

(** A computation asks only for the listed keys when every [KeyError] it
    raises is for one of them. *)
Definition asks (keys : list string) {A} (m : dictM A) : Prop :=
  ∀ d k, (m d).2 = Raise (KeyError k) → k ∈ keys.

(** The two threshold entries of the schema with their unit keys. *)
Definition filesize_options : list (OptionHolder * string) :=
  [(mkOptionHolder "min_filesize" "--min-filesize" (VInt 0) None,
    "min_filesize_unit");
   (mkOptionHolder "max_filesize" "--max-filesize" (VInt 0) None,
    "max_filesize_unit")].


(** Whether a string has a whitespace character. *)
Fixpoint has_space (s : string) : bool :=
  match s with
  | EmptyString => false
  | String c rest => isspace c || has_space rest
  end.

(** The most tokens an entry can contribute. *)
Definition most_tokens (entry : OptionHolder) : nat :=
  if is_boolean entry then 1%nat else 2%nat.

(** * utils

    [youtube_dl_gui/Utils.py].  The functions that only compute on strings
    and integers are embedded; [os.name] and the home directory, which the
    module takes from the environment, are arguments.  The module is run by
    Python 2, as the package is ([parsers.py] names the interpreter), so
    [/] on integers is floor division. *)

(** [s.startswith(p)] *)
Fixpoint starts_with (p s : string) : bool :=
  match p, s with
  | EmptyString, _ => true
  | String x p', String y s' => Ascii.eqb x y && starts_with p' s'
  | String _ _, EmptyString => false
  end.

(** [needle in hay] on strings. *)
Fixpoint str_contains (needle hay : string) : bool :=
  starts_with needle hay
  || match hay with
     | EmptyString => false
     | String _ rest => str_contains needle rest
     end.

(** [video_is_dash] *)
Definition video_is_dash (video : string) : bool :=
  str_contains "DASH" video.

(** [audio_is_dash] *)
Definition audio_is_dash (audio : string) : bool :=
  negb (String.eqb audio "none").

(** [path_seperator]: a one-character string on either platform. *)
Definition path_seperator (os_type : string) : ascii :=
  if String.eqb os_type "nt" then "\"%char else "/"%char.

(** [s.split(sep)] for a one-character separator: the pieces between the
    separators, empty pieces included; never the empty list. *)
Fixpoint str_split (sep : ascii) (s : string) : list string :=
  match s with
  | EmptyString => [""]
  | String c rest =>
      if Ascii.eqb c sep then "" :: str_split sep rest
      else match str_split sep rest with
           | piece :: pieces => String c piece :: pieces
           | [] => [String c ""]
           end
  end.

(** [sep.join(pieces)] *)
Fixpoint str_join (sep : ascii) (pieces : list string) : string :=
  match pieces with
  | [] => ""
  | [piece] => piece
  | piece :: rest => piece +:+ String sep (str_join sep rest)
  end.

(** [s[-1:] == c] *)
Fixpoint ends_with (c : ascii) (s : string) : bool :=
  match s with
  | EmptyString => false
  | String x EmptyString => Ascii.eqb x c
  | String _ rest => ends_with c rest
  end.

(** [fix_path]; [home] is what [get_home()] returns. *)
Definition fix_path (os_type home path : string) : string :=
  if String.eqb path "" then path
  else
    let sep := path_seperator os_type in
    let path := if ends_with sep path then path else path +:+ String sep "" in
    let path_list := str_split sep path in
    let path_list :=
      map (λ item, if String.eqb item "~" then home else item) path_list in
    str_join sep path_list.

(** [get_filename]: [path.split(sep)[-1]]. *)
Definition get_filename (os_type path : string) : string :=
  default "" (last (str_split (path_seperator os_type) path)).

(** [get_youtubedl_filename] *)
Definition get_youtubedl_filename (os_type : string) : string :=
  if String.eqb os_type "nt" then "youtube-dl" +:+ ".exe" else "youtube-dl".

(** The dictionary [get_time] returns. *)
Record dtime : Type := mkDtime {
  seconds : Z;
  minutes : Z;
  hours : Z;
  days : Z
}.

(** [get_time] on an integer number of seconds. *)
Definition get_time (secs : Z) : dtime :=
  if secs <? 60 then mkDtime secs 0 0 0
  else if secs <? 3600 then mkDtime (secs mod 60) (secs / 60) 0 0
  else if secs <? 86400 then
    mkDtime (secs mod 3600 mod 60) (secs mod 3600 / 60) (secs / 3600) 0
  else
    mkDtime (secs mod 86400 mod 3600 mod 60) (secs mod 86400 mod 3600 / 60)
      (secs mod 86400 / 3600) (secs / 86400).

(** Whether a string has the character. *)
Fixpoint has_char (c : ascii) (s : string) : bool :=
  match s with
  | EmptyString => false
  | String x rest => Ascii.eqb x c || has_char c rest
  end.

(** [path.pop()] on the pieces of a path, joined again: the path without
    its last piece. *)
Definition parent_path (os_type path : string) : string :=
  str_join (path_seperator os_type)
    (removelast (str_split (path_seperator os_type) path)).

(** [get_user_config_path]; [appdata] is what [os.getenv('APPDATA')]
    returns, nothing when the variable is not set. *)
Definition get_user_config_path (os_type home : string)
    (appdata : option string) : option string :=
  if String.eqb os_type "nt" then appdata
  else Some (fix_path os_type home home +:+ ".config").

Definition SIZES : list string :=
  ["256x256"; "128x128"; "64x64"; "32x32"; "16x16"].

Definition ICON_NAME : string := "youtube-dl-gui_".

Definition ICON_EXTENSION : string := ".png".

Definition ICONS_LIST : list string :=
  map (λ s, ICON_NAME +:+ s +:+ ICON_EXTENSION) SIZES.

Section Icons.

(** What [get_icon_path] takes from its environment: the platform, the
    home directory, the directory of the module ([abs_path(__file__)]), the
    lower-case application name (the constant [__appname__] of the [data]
    module, which is not among the sources), the two environment variables,
    and which files exist. *)
Variable os_type home package_path appname : string.
Variable appdata xdg_data_dirs : option string.
Variable file_exist : string → bool.

(** The icons of all sizes in a directory, largest first. *)
Definition icons_in (directory : string) : list string :=
  map (λ icon, fix_path os_type home directory +:+ icon) ICONS_LIST.

(** The first loop: the [icons] directory of the package directory, then
    of its parent. *)
Definition package_icons : list string :=
  flat_map (λ path, icons_in (fix_path os_type home path +:+ "icons"))
    [package_path; parent_path os_type package_path].

(** The icons under the settings directory. *)
Definition settings_icons (config_path : string) : list string :=
  icons_in
    (fix_path os_type home
       (fix_path os_type home config_path +:+ appname) +:+ "icons").

(** The icons under [$HOME/.icons]. *)
Definition home_icons : list string :=
  icons_in (fix_path os_type home home +:+ ".icons").

(** The icons of the [hicolor] theme under each directory of
    [$XDG_DATA_DIRS]. *)
Definition xdg_icons (data_dirs : string) : list string :=
  flat_map
    (λ temp_path,
       let temp_path := fix_path os_type home temp_path +:+ "icons" in
       let temp_path := fix_path os_type home temp_path +:+ "hicolor" in
       map (λ size,
              let p := fix_path os_type home temp_path +:+ size in
              let p := fix_path os_type home p +:+ "apps" in
              fix_path os_type home p +:+ ICON_NAME +:+ size
              +:+ ICON_EXTENSION)
         SIZES)
    (str_split ":" data_dirs).

(** The icons under [/usr/share/pixmaps]. *)
Definition pixmaps_icons : list string :=
  map (λ icon, "/usr/share/pixmaps/" +:+ icon) ICONS_LIST.

(** [get_icon_path]: the first icon that exists, in the order of the five
    searches.  The settings search raises when [APPDATA] is not set on
    Windows ([fix_path(None)]), the fourth when [XDG_DATA_DIRS] is not set
    ([None.split]). *)
Definition get_icon_path : result (option string) :=
  match find file_exist package_icons with
  | Some p => Ok (Some p)
  | None =>
      match get_user_config_path os_type home appdata with
      | None => Raise OtherError
      | Some config_path =>
          match find file_exist (settings_icons config_path) with
          | Some p => Ok (Some p)
          | None =>
              match find file_exist home_icons with
              | Some p => Ok (Some p)
              | None =>
                  match xdg_data_dirs with
                  | None => Raise OtherError
                  | Some data_dirs =>
                      match find file_exist (xdg_icons data_dirs) with
                      | Some p => Ok (Some p)
                      | None => Ok (find file_exist pixmaps_icons)
                      end
                  end
              end
          end
      end
  end.

End Icons.

(** ** Further configurations and entries for the examples *)


(** [default_config] with an empty string for the maximum size. *)
Definition blank_max_size_config : gmap string value :=
  <["max_filesize" := VStr ""]> default_config.


(** [default_config] with automatic subtitles on and without [write_subs]. *)
Definition auto_subs_only_config : gmap string value :=
  <["write_auto_subs" := VBool true]> (delete "write_subs" default_config).

(** An entry declared with an empty list of requirements. *)
Definition no_requirement_option : OptionHolder :=
  mkOptionHolder "keep_video" "-k" (VBool false) (Some []).

(** A file system with one icon, in [/usr/share/pixmaps]. *)
Definition only_pixmaps_icon (path : string) : bool :=
  String.eqb path "/usr/share/pixmaps/youtube-dl-gui_64x64.png".

(** * Tactics *)

(** Decompose a goal about a computation along the binds and conditionals
    of the code: [bind] applies the lemma for [dbind], [leaf] closes the
    goals about single operations. *)
Ltac walk_binds bind leaf :=
  repeat first
    [ bind; [| intros ?]
    | match goal with |- _ (if ?b then _ else _) => destruct b end
    | leaf ].

Ltac in_list :=
  solve [repeat first [apply list_elem_of_here | apply list_elem_of_further]].

(** Membership, non-membership and inclusion between lists of keys that
    are written out. *)
Ltac keys_solver :=
  intros;
  repeat match goal with
    | H : _ ∈ [] |- _ => by apply elem_of_nil in H
    | H : _ ∈ _ :: _ |- _ => apply elem_of_cons in H as [? | H]; [simplify_eq |]
    | H : _ ∉ _ :: _ |- _ => apply not_elem_of_cons in H as [? H]
    end;
  lazymatch goal with
  | |- _ ⊆ _ =>
      let x := fresh in
      let H := fresh in
      intros x H;
      repeat (apply elem_of_cons in H as [-> | H]);
      [in_list .. | by apply elem_of_nil in H]
  | |- _ ∈ _ => in_list
  | |- _ ∉ _ =>
      repeat (apply not_elem_of_cons;
              split; [first [assumption | discriminate | congruence] |]);
      apply not_elem_of_nil
  | |- _ ≠ _ => first [assumption | discriminate | congruence]
  end.

(** * The option compiler *)

Section Parser.

(** The helpers of [utils] that the parser imports, and [os.path.join],
    whose result depends on the platform, are parameters.
    [remove_shortcuts] and [path_join] return no value when they raise;
    [to_string] (string formatting) is total. *)
Variable remove_shortcuts : value → option value.
Variable path_join : value → value → option value.
Variable to_string : value → string.

(** [OptionsParser._build_savepath] *)
Definition _build_savepath : dictM unit :=
  let* raw := getitem "save_path" in
  let* save_path := helper (remove_shortcuts raw) in
  let* fmt := getitem "output_format" in
  let* save_path :=
    if py_eq fmt (VStr "id") then
      helper (path_join save_path (VStr "%(id)s.%(ext)s"))
    else
      let* fmt := getitem "output_format" in
      if py_eq fmt (VStr "title") then
        helper (path_join save_path (VStr "%(title)s.%(ext)s"))
      else
        let* template := getitem "output_template" in
        helper (path_join save_path template)
  in
  setitem "save_path" save_path.

(** [OptionsParser._build_videoformat]; [and] reads the second format
    only when the first differs from ['0']. *)
Definition _build_videoformat : dictM unit :=
  let* first := getitem "video_format" in
  let* both :=
    if py_ne first (VStr "0") then
      let* second := getitem "second_video_format" in
      dret (py_ne second (VStr "0"))
    else dret false
  in
  if both then
    let* first := getitem "video_format" in
    let* left := py_add first (VStr "+") in
    let* second := getitem "second_video_format" in
    let* joined := py_add left second in
    setitem "video_format" joined
  else dret tt.

(** One of the two statements of [_build_filesizes]. *)
Definition build_filesize (key unit_key : string) : dictM unit :=
  let* size := getitem key in
  if truthy size then
    let* size := getitem key in
    let* unit := getitem unit_key in
    let* text := str_add (to_string size) unit in
    setitem key (VStr text)
  else dret tt.

(** [OptionsParser._build_filesizes] *)
Definition _build_filesizes : dictM unit :=
  build_filesize "min_filesize" "min_filesize_unit" ;;;
  build_filesize "max_filesize" "max_filesize_unit".

(** The body of the loop over [self._ydl_options]: the tokens appended
    to [options_list] for one option. *)
Definition parse_option (option : OptionHolder)
    (options_list : list string) : dictM (list string) :=
  let* ok := check_requirements option in
  if ok then
    let* value := getitem (name option) in
    if py_ne value (default_value option) then
      let options_list := options_list ++ [flag option] in
      if negb (is_boolean option) then
        dret (options_list ++ [to_string value])
      else dret options_list
    else dret options_list
  else dret options_list.

(** [for option in self._ydl_options: ...] *)
Fixpoint parse_options (options : list OptionHolder)
    (options_list : list string) : dictM (list string) :=
  match options with
  | [] => dret options_list
  | option :: rest =>
      let* options_list := parse_option option options_list in
      parse_options rest options_list
  end.

(** [OptionsParser.parse] from the statement after the copy on: every
    step acts on the copy [options_dict]. *)
Definition parse_copy : dictM (list string) :=
  let options_list := ["--newline"] in
  _build_savepath ;;;
  _build_videoformat ;;;
  _build_filesizes ;;;
  let* options_list := parse_options ydl_options options_list in
  let* cmd_args := getitem "cmd_args" in
  let* args := py_split cmd_args in
  dret (options_list ++ args).

(** The store of dictionary objects. *)
Definition parse (options_dictionary : positive)
    (store : gmap positive (gmap string value))
    : gmap positive (gmap string value) * result (list string) :=
  match store !! options_dictionary with
  | None => (store, Raise OtherError)
  | Some d =>
      (* options_dict = options_dictionary.copy() *)
      let options_dict := fresh (dom store) in
      let '(d', r) := parse_copy d in
      (<[options_dict := d']> store, r)
  end.

(** The token list [parse] returns for a configuration, whatever the
    store it lives in. *)
Definition compile (config : gmap string value) : result (list string) :=
  (parse_copy config).2.

(** The three derivation steps alone: they turn the copy into the derived
    configuration that the loop reads. *)
Definition build_options : dictM unit :=
  _build_savepath ;;; _build_videoformat ;;; _build_filesizes.

(** The tokens an entry contributes, as the specification words them
    (the facts below compare this walk of the schema with
    [parse_options]): nothing unless its requirements are satisfied and
    its value differs from its default, else its flag, followed by the
    string form of the value when the entry is not boolean. *)
Definition contribution (config : gmap string value)
    (entry : OptionHolder) : list string :=
  match config !! name entry with
  | Some v =>
      if requirementsSatisfied entry config && py_ne v (default_value entry)
      then flag entry :: (if is_boolean entry then [] else [to_string v])
      else []
  | None => []
  end.

(** The tokens an entry emits in a configuration, case by case in the
    words of the specification, without the methods of [OptionHolder]: an
    entry whose requirements are not satisfied, or whose value is the same
    value as its default, emits nothing; an entry whose requirements are
    satisfied and whose value differs from its default emits its flag
    alone when the default is a truth value, and its flag followed by the
    string form of the value when the default is anything else. *)
Inductive emits (config : gmap string value) (entry : OptionHolder)
    : list string → Prop :=
  | emits_unsatisfied :
      requirementsSatisfied entry config = false →
      emits config entry []
  | emits_default v :
      requirementsSatisfied entry config = true →
      config !! name entry = Some v →
      same_value v (default_value entry) →
      emits config entry []
  | emits_flag v b :
      requirementsSatisfied entry config = true →
      config !! name entry = Some v →
      ¬ same_value v (default_value entry) →
      default_value entry = VBool b →
      emits config entry [flag entry]
  | emits_flag_value v :
      requirementsSatisfied entry config = true →
      config !! name entry = Some v →
      ¬ same_value v (default_value entry) →
      (∀ b, default_value entry ≠ VBool b) →
      emits config entry [flag entry; to_string v].

(** A configuration on which a derivation step fails on a value, not on
    a missing key: the path helpers reject the save path or the template, a
    format selector to be merged is not a string, or the unit of a truthy
    threshold is not a string. *)
Inductive ill_typed (config : gmap string value) : Prop :=
  | ill_save_path raw :
      config !! "save_path" = Some raw →
      remove_shortcuts raw = None →
      ill_typed config
  | ill_template raw stripped template :
      config !! "save_path" = Some raw →
      remove_shortcuts raw = Some stripped →
      naming_template config = Some template →
      path_join stripped template = None →
      ill_typed config
  | ill_video_format first second :
      config !! "video_format" = Some first →
      config !! "second_video_format" = Some second →
      py_ne first (VStr "0") = true →
      py_ne second (VStr "0") = true →
      (∀ a b, ¬ (first = VStr a ∧ second = VStr b)) →
      ill_typed config
  | ill_filesize_unit entry unit_key size unit :
      (entry, unit_key) ∈ filesize_options →
      config !! name entry = Some size →
      truthy size = true →
      config !! unit_key = Some unit →
      (∀ text, unit ≠ VStr text) →
      ill_typed config.

(** * Facts *)

(** ** Python values *)

Lemma py_eq_str_inv v s : py_eq v (VStr s) = true → v = VStr s.
Proof.
  destruct v as [| b | n | t]; simpl; try discriminate.
  intros H. apply String.eqb_eq in H. by subst.
Qed.

Lemma py_eq_false_falsy v : py_eq v (VBool false) = true → truthy v = false.
Proof.
  destruct v as [| [] | n | t]; simpl; try done.
  intros H. apply Z.eqb_eq in H. by subst.
Qed.

Lemma py_eq_zero_falsy v : py_eq v (VInt 0) = true → truthy v = false.
Proof.
  destruct v as [| [] | n | t]; simpl; try done.
  intros H. apply Z.eqb_eq in H. by subst.
Qed.

(** [==] holds exactly of two values that are the same value. *)
Lemma py_eq_same a b : py_eq a b = true ↔ same_value a b.
Proof.
  split.
  - destruct a as [| x | n | s], b as [| y | m | t]; simpl;
      try discriminate; intros H.
    + constructor.
    + apply Bool.eqb_prop in H as ->. by apply (same_number _ _ (Z.b2z y)).
    + apply Z.eqb_eq in H as ->. by apply (same_number _ _ (Z.b2z x)).
    + apply Z.eqb_eq in H as ->. by apply (same_number _ _ (Z.b2z y)).
    + apply Z.eqb_eq in H as ->. by apply (same_number _ _ m).
    + apply String.eqb_eq in H as ->. constructor.
  - intros [| s | x y n Hx Hy]; simpl.
    + done.
    + apply String.eqb_refl.
    + destruct x as [| x | k | s], y as [| y | m | t]; simpl in *;
        try discriminate; injection Hx as <-; injection Hy as Hy;
        try (apply Z.eqb_eq; congruence).
      destruct x, y; simpl in *; (done || discriminate).
Qed.

Lemma py_ne_differs a b : py_ne a b = true ↔ ¬ same_value a b.
Proof.
  unfold py_ne. rewrite <- py_eq_same.
  destruct (py_eq a b); simpl; split; (done || congruence || eauto).
Qed.

(** Against a string, [==] is equality. *)
Lemma py_eq_str v s : py_eq v (VStr s) = bool_decide (v = VStr s).
Proof.
  destruct (py_eq v (VStr s)) eqn:E.
  - apply py_eq_str_inv in E as ->. by rewrite bool_decide_eq_true_2.
  - rewrite bool_decide_eq_false_2; [done |]. intros ->.
    simpl in E. by rewrite String.eqb_refl in E.
Qed.

(** ** The dictionary monad *)

Lemma dbind_assoc {A B C} (m : dictM A) (f : A → dictM B) (g : B → dictM C) d :
  dbind (dbind m f) g d = dbind m (λ a, dbind (f a) g) d.
Proof. unfold dbind. by destruct (m d) as [d1 [a | e]]. Qed.

Lemma dbind_ok {A B} (m : dictM A) (f : A → dictM B) d d1 a :
  m d = (d1, Ok a) → dbind m f d = f a d1.
Proof. unfold dbind. by intros ->. Qed.

Lemma dbind_raise {A B} (m : dictM A) (f : A → dictM B) d d1 e :
  m d = (d1, Raise e) → dbind m f d = (d1, Raise e).
Proof. unfold dbind. by intros ->. Qed.

Lemma dbind_ok_inv {A B} (m : dictM A) (f : A → dictM B) d d2 b :
  dbind m f d = (d2, Ok b) →
  ∃ d1 a, m d = (d1, Ok a) ∧ f a d1 = (d2, Ok b).
Proof.
  unfold dbind. destruct (m d) as [d1 [a | e]]; [eauto | discriminate].
Qed.

Lemma getitem_ok key d v : d !! key = Some v → getitem key d = (d, Ok v).
Proof. unfold getitem. by intros ->. Qed.

Lemma getitem_ok_inv key d d1 v :
  getitem key d = (d1, Ok v) → d1 = d ∧ d !! key = Some v.
Proof.
  unfold getitem. destruct (d !! key); intros H; by simplify_eq.
Qed.

(** ** Tame computations *)

Section Tame.

Variable keys : list string.

Lemma tame_dret {A} (a : A) : tame keys (dret a).
Proof. intros d. simpl. split; [| split]; [done | done | discriminate]. Qed.

Lemma tame_raise_other {A} : tame keys (@raise A OtherError).
Proof. intros d. simpl. split; [| split]; [done | done | discriminate]. Qed.

Lemma tame_helper {A} (o : option A) : tame keys (helper o).
Proof. destruct o; [apply tame_dret | apply tame_raise_other]. Qed.

Lemma tame_getitem key : tame keys (getitem key).
Proof.
  intros d. unfold getitem.
  destruct (d !! key) eqn:E; simpl; (split; [| split]); try done.
  intros k [= <-]. done.
Qed.

Lemma tame_setitem key v : key ∈ keys → tame keys (setitem key v).
Proof.
  intros Hin d. unfold setitem. simpl. split; [| split]; [| | discriminate].
  - intros k Hk. apply lookup_insert_ne. by intros ->.
  - intros k Hk. rewrite lookup_insert. by case_decide.
Qed.

Lemma tame_dbind {A B} (m : dictM A) (f : A → dictM B) :
  tame keys m → (∀ a, tame keys (f a)) → tame keys (dbind m f).
Proof.
  intros Hm Hf d. unfold dbind.
  destruct (Hm d) as (Hm1 & Hm2 & Hm3).
  destruct (m d) as [d1 [a | e]]; simpl in *;
    [| split; [| split]; [done | done | intros k [= ->]; by apply Hm3]].
  destruct (Hf a d1) as (Hf1 & Hf2 & Hf3).
  destruct (f a d1) as [d2 r]; simpl in *.
  split; [| split].
  - intros k Hk. by rewrite Hf1, Hm1.
  - intros k Hk. by apply Hf2, Hm2.
  - auto.
Qed.

Lemma tame_str_add a b : tame keys (str_add a b).
Proof. destruct b; simpl; (apply tame_dret || apply tame_raise_other). Qed.

Lemma tame_py_add a b : tame keys (py_add a b).
Proof.
  destruct a; simpl; try apply tame_raise_other.
  apply tame_dbind; [apply tame_str_add | intros; apply tame_dret].
Qed.

Lemma tame_py_split v : tame keys (py_split v).
Proof. destruct v; simpl; (apply tame_dret || apply tame_raise_other). Qed.

Lemma tame_getitems ks : tame keys (getitems ks).
Proof.
  induction ks as [| k ks IH]; simpl; [apply tame_dret |].
  apply tame_dbind; [apply tame_getitem | intros v].
  apply tame_dbind; [done | intros; apply tame_dret].
Qed.

Lemma tame_check_requirements o : tame keys (check_requirements o).
Proof.
  unfold check_requirements. destruct (requirements o); [| apply tame_dret].
  apply tame_dbind; [apply tame_getitems | intros; apply tame_dret].
Qed.

End Tame.

Lemma tame_weaken {A} keys1 keys2 (m : dictM A) :
  keys1 ⊆ keys2 → tame keys1 m → tame keys2 m.
Proof.
  intros Hsub Hm d. destruct (Hm d) as (H1 & H2 & H3).
  split; [| split]; [| done | done].
  intros k Hk. apply H1. intros Hin. by apply Hk, Hsub.
Qed.

Create HintDb tame discriminated.
#[local] Hint Resolve tame_dret tame_raise_other tame_helper tame_getitem
  tame_str_add tame_py_add tame_py_split tame_getitems
  tame_check_requirements : tame.

(** The tame goals of the code: binds and conditionals, assignments to
    listed keys, and the operations of the hint base. *)
Ltac tame_steps :=
  walk_binds ltac:(apply tame_dbind)
    ltac:(first [ apply tame_setitem; keys_solver
                | solve [eauto with tame] ]).

(** ** Reading lists of keys *)

Lemma first_missing_app d ks1 ks2 :
  first_missing d (ks1 ++ ks2) =
  match first_missing d ks1 with
  | Some k => Some k
  | None => first_missing d ks2
  end.
Proof.
  induction ks1 as [| k ks IH]; simpl; [done |].
  by destruct (d !! k).
Qed.

Lemma first_missing_None d ks :
  first_missing d ks = None ↔ Forall (λ k, is_Some (d !! k)) ks.
Proof.
  induction ks as [| k ks IH]; simpl.
  - split; [constructor | done].
  - destruct (d !! k) eqn:E.
    + rewrite IH. split; [intros; constructor; eauto | by inversion 1].
    + split; [done |]. inversion 1 as [| ? ? [? ?]]. congruence.
Qed.

Lemma first_missing_Some d ks k :
  first_missing d ks = Some k → k ∈ ks ∧ d !! k = None.
Proof.
  induction ks as [| k' ks IH]; simpl; [done |].
  destruct (d !! k') eqn:E.
  - intros H. destruct (IH H). split; [by right | done].
  - intros [= <-]. split; [by left | done].
Qed.

Lemma getitems_eq keys d :
  getitems keys d =
  (d, match first_missing d keys with
      | Some k => Raise (KeyError k)
      | None => Ok (values_of d keys)
      end).
Proof.
  induction keys as [| k ks IH]; simpl; [done |].
  unfold dbind, getitem, values_of. simpl.
  destruct (d !! k) eqn:E; [| done].
  rewrite IH. by destruct (first_missing d ks).
Qed.

Lemma existsb_values_of d keys :
  existsb truthy (values_of d keys) =
  existsb (λ req, match d !! req with
                  | Some v => truthy v
                  | None => false
                  end) keys.
Proof.
  unfold values_of. induction keys as [| k ks IH]; simpl; [done |].
  destruct (d !! k); simpl; by rewrite <- IH.
Qed.

Lemma check_requirements_eq o d :
  check_requirements o d =
  (d, match first_missing d (default [] (requirements o)) with
      | Some k => Raise (KeyError k)
      | None => Ok (requirementsSatisfied o d)
      end).
Proof.
  unfold check_requirements, requirementsSatisfied.
  destruct (requirements o) as [reqs |]; simpl; [| done].
  unfold dbind. rewrite getitems_eq.
  destruct (first_missing d reqs); [done |].
  simpl. by rewrite existsb_values_of.
Qed.

Lemma flat_map_ext_elem {A B} (f g : A → list B) (l : list A) :
  (∀ x, x ∈ l → f x = g x) → flat_map f l = flat_map g l.
Proof.
  induction l as [| x l IH]; simpl; [done |].
  intros H. rewrite (H x) by (by left). rewrite IH; [done |].
  intros y Hy. apply H. by right.
Qed.

(** ** The loop over the schema *)

Lemma parse_option_eq o acc d :
  parse_option o acc d =
  (d, match first_missing d (keys_read d o) with
      | Some k => Raise (KeyError k)
      | None => Ok (acc ++ contribution d o)
      end).
Proof.
  unfold parse_option, keys_read, contribution, dbind.
  rewrite check_requirements_eq.
  destruct (requirements o) as [reqs |] eqn:Hreq; simpl.
  - rewrite first_missing_app.
    destruct (first_missing d reqs); [done |].
    destruct (requirementsSatisfied o d); simpl;
      [| destruct (d !! name o); simpl; by rewrite app_nil_r].
    unfold getitem. destruct (d !! name o) as [v |]; [| done].
    destruct (py_ne v (default_value o)); simpl;
      [| by rewrite app_nil_r].
    destruct (is_boolean o); simpl; [done |].
    by rewrite <- app_assoc.
  - replace (requirementsSatisfied o d) with true
      by (unfold requirementsSatisfied; by rewrite Hreq).
    unfold getitem. destruct (d !! name o) as [v |]; [| done].
    simpl. destruct (py_ne v (default_value o)); simpl;
      [| by rewrite app_nil_r].
    destruct (is_boolean o); simpl; [done |].
    by rewrite <- app_assoc.
Qed.

Lemma parse_options_eq opts acc d :
  parse_options opts acc d =
  (d, match first_missing d (flat_map (keys_read d) opts) with
      | Some k => Raise (KeyError k)
      | None => Ok (acc ++ flat_map (contribution d) opts)
      end).
Proof.
  revert acc. induction opts as [| o opts IH]; intros acc; simpl.
  - by rewrite app_nil_r.
  - unfold dbind. rewrite parse_option_eq, first_missing_app.
    destruct (first_missing d (keys_read d o)); [done |].
    rewrite IH. by rewrite <- app_assoc.
Qed.

Lemma tame_parse_options keys opts acc : tame keys (parse_options opts acc).
Proof.
  intros d. rewrite parse_options_eq. simpl.
  split; [| split]; [done | done |].
  intros k Hk.
  destruct (first_missing d (flat_map (keys_read d) opts)) as [k' |] eqn:E;
    [| discriminate].
  injection Hk as <-. by apply first_missing_Some in E as [_ ?].
Qed.

(** ** The derivation steps *)

Lemma tame_build_savepath : tame ["save_path"] _build_savepath.
Proof. unfold _build_savepath. tame_steps. Qed.

Lemma tame_build_videoformat : tame ["video_format"] _build_videoformat.
Proof. unfold _build_videoformat. tame_steps. Qed.

Lemma tame_build_filesize key unit_key :
  tame [key] (build_filesize key unit_key).
Proof. unfold build_filesize. tame_steps. Qed.

Lemma tame_build_options : tame written build_options.
Proof.
  unfold build_options, _build_filesizes, written.
  apply tame_dbind; [| intros _].
  { eapply tame_weaken; [| apply tame_build_savepath]. keys_solver. }
  apply tame_dbind; [| intros _].
  { eapply tame_weaken; [| apply tame_build_videoformat]. keys_solver. }
  apply tame_dbind; [| intros _].
  - eapply tame_weaken; [| apply tame_build_filesize]. keys_solver.
  - eapply tame_weaken; [| apply tame_build_filesize]. keys_solver.
Qed.

(** [parse_copy] is the derivation followed by the walk and the
    passthrough arguments. *)
Lemma parse_copy_eq d :
  parse_copy d =
  dbind build_options (λ _,
    let* options_list := parse_options ydl_options ["--newline"] in
    let* cmd_args := getitem "cmd_args" in
    let* args := py_split cmd_args in
    dret (options_list ++ args)) d.
Proof.
  unfold parse_copy, build_options.
  unfold dbind at 1 2 3. unfold dbind at 4 5 6.
  destruct (_build_savepath d) as [d1 [[] | e]]; [| done].
  destruct (_build_videoformat d1) as [d2 [[] | e]]; [| done].
  by destruct (_build_filesizes d2) as [d3 [[] | e]].
Qed.

Lemma tame_parse_copy : tame written parse_copy.
Proof.
  intros d. rewrite parse_copy_eq. revert d.
  apply tame_dbind; [apply tame_build_options | intros _].
  apply tame_dbind; [apply tame_parse_options | intros ?].
  tame_steps.
Qed.

(** The tokens of a successful call: the leading token, the contributions
    of the schema entries in declaration order, read in the derived
    configuration, and the passthrough tokens.  The call succeeds exactly
    when the derivation does, the loop finds every key it reads, and
    [cmd_args] is a string. *)
Lemma compile_ok_iff config tokens :
  compile config = Ok tokens ↔
  ∃ derived args,
    build_options config = (derived, Ok tt)
    ∧ first_missing derived (flat_map (keys_read derived) ydl_options) = None
    ∧ derived !! "cmd_args" = Some (VStr args)
    ∧ tokens =
        ["--newline"] ++ flat_map (contribution derived) ydl_options ++ split args.
Proof.
  unfold compile. rewrite parse_copy_eq.
  generalize ydl_options as opts. intros opts. unfold dbind at 1.
  destruct (build_options config) as [derived [[] | e]] eqn:Hb; cbn [snd].
  - unfold dbind at 1. rewrite parse_options_eq.
    destruct (first_missing derived _) as [k |] eqn:Hm; cbn [snd].
    + split; [done |]. intros (? & ? & [= <-] & ? & _). congruence.
    + unfold dbind, getitem.
      destruct (derived !! "cmd_args") as [[| b | n | s] |] eqn:Hc; simpl;
        try (split; [done |]; intros (? & ? & [= <-] & _ & ? & _); congruence).
      split.
      * intros [= <-]. by exists derived, s.
      * intros (? & args & [= <-] & _ & Hc' & ->).
        rewrite Hc in Hc'. by injection Hc' as <-.
  - split; [done |]. intros (? & ? & ? & _). congruence.
Qed.

(** What a successful derivation step has read. *)
Lemma build_savepath_ok_inv d d' :
  _build_savepath d = (d', Ok tt) →
  ∃ raw fmt sp,
    d !! "save_path" = Some raw
    ∧ d !! "output_format" = Some fmt
    ∧ (py_eq fmt (VStr "id") = false → py_eq fmt (VStr "title") = false →
       is_Some (d !! "output_template"))
    ∧ d' = <["save_path" := sp]> d.
Proof.
  unfold _build_savepath, dbind, getitem.
  destruct (d !! "save_path") as [raw |] eqn:Hraw; simpl; [| done].
  destruct (remove_shortcuts raw) as [p |]; simpl; [| done].
  destruct (d !! "output_format") as [fmt |] eqn:Hfmt; simpl; [| done].
  destruct (py_eq fmt (VStr "id")) eqn:Hid; simpl;
    [| rewrite Hfmt; simpl;
       destruct (py_eq fmt (VStr "title")) eqn:Htitle; simpl;
       [| destruct (d !! "output_template") as [template |] eqn:Htpl;
          simpl; [| done]]].
  all: match goal with |- context [path_join ?a ?b] =>
         destruct (path_join a b) as [sp |]; simpl; [| done] end.
  all: intros [= <-]; exists raw, fmt, sp;
    (split; [done |]); (split; [done |]); (split; [| done]);
    intros; (congruence || eauto).
Qed.

Lemma build_videoformat_ok_inv d d' :
  _build_videoformat d = (d', Ok tt) →
  ∃ first,
    d !! "video_format" = Some first
    ∧ (py_ne first (VStr "0") = true →
       is_Some (d !! "second_video_format")).
Proof.
  unfold _build_videoformat, dbind, getitem, py_add, str_add, setitem,
    dret, raise.
  intros H. repeat case_match; simplify_eq; eexists;
    (split; [done |]); intros; (congruence || eauto).
Qed.

Lemma build_filesize_ok_inv key unit_key d d' :
  build_filesize key unit_key d = (d', Ok tt) →
  ∃ size,
    d !! key = Some size
    ∧ (truthy size = true → is_Some (d !! unit_key)).
Proof.
  unfold build_filesize, dbind, getitem, str_add, setitem,
    dret, raise.
  intros H. repeat case_match; simplify_eq; eexists;
    (split; [done |]); intros; (congruence || eauto).
Qed.

(** The steps that leave the dictionary as it is. *)
Lemma build_videoformat_single d first :
  d !! "video_format" = Some first →
  py_ne first (VStr "0") = false →
  _build_videoformat d = (d, Ok tt).
Proof.
  intros Hf Hne. unfold _build_videoformat, dbind, getitem.
  by rewrite Hf, Hne.
Qed.

Lemma build_filesize_falsy key unit_key d size :
  d !! key = Some size →
  truthy size = false →
  build_filesize key unit_key d = (d, Ok tt).
Proof.
  intros Hs Hf. unfold build_filesize, dbind, getitem.
  by rewrite Hs, Hf.
Qed.

(** A successful derivation has read the keys the three steps use, and
    the derived configuration binds no key that the input lacks. *)
Lemma build_options_ok_inv config derived :
  build_options config = (derived, Ok tt) →
  ∃ fmt first smin smax,
    is_Some (config !! "save_path")
    ∧ config !! "output_format" = Some fmt
    ∧ (py_eq fmt (VStr "id") = false → py_eq fmt (VStr "title") = false →
       is_Some (config !! "output_template"))
    ∧ config !! "video_format" = Some first
    ∧ (py_ne first (VStr "0") = true →
       is_Some (config !! "second_video_format"))
    ∧ config !! "min_filesize" = Some smin
    ∧ (truthy smin = true → is_Some (config !! "min_filesize_unit"))
    ∧ config !! "max_filesize" = Some smax
    ∧ (truthy smax = true → is_Some (config !! "max_filesize_unit"))
    ∧ (∀ k, is_Some (derived !! k) → is_Some (config !! k)).
Proof.
  intros Hb.
  pose proof (tame_build_options config) as (Hframe & _ & _).
  rewrite Hb in Hframe. simpl in Hframe.
  unfold build_options, _build_filesizes in Hb.
  apply dbind_ok_inv in Hb as (d1 & [] & Hsp & Hb).
  apply dbind_ok_inv in Hb as (d2 & [] & Hvf & Hb).
  apply dbind_ok_inv in Hb as (d3 & [] & Hmin & Hmax).
  pose proof (tame_build_savepath config) as (F1 & _ & _).
  rewrite Hsp in F1. simpl in F1.
  pose proof (tame_build_videoformat d1) as (F2 & _ & _).
  rewrite Hvf in F2. simpl in F2.
  pose proof (tame_build_filesize "min_filesize" "min_filesize_unit" d2)
    as (F3 & _ & _).
  rewrite Hmin in F3. simpl in F3.
  apply build_savepath_ok_inv in Hsp
    as (raw & fmt & sp & Hraw & Hfmt & Htpl & _).
  apply build_videoformat_ok_inv in Hvf as (first & Hfirst & Hsecond).
  apply build_filesize_ok_inv in Hmin as (smin & Hsmin & Humin).
  apply build_filesize_ok_inv in Hmax as (smax & Hsmax & Humax).
  rewrite F1 in Hfirst, Hsecond by keys_solver.
  rewrite F2, F1 in Hsmin, Humin by keys_solver.
  rewrite F3, F2, F1 in Hsmax, Humax by keys_solver.
  exists fmt, first, smin, smax.
  repeat (split; [by eauto |]).
  intros k Hk. destruct (decide (k ∈ written)) as [Hin | Hout].
  - revert Hin. unfold written. rewrite !elem_of_cons, elem_of_nil.
    intros [-> | [-> | [-> | [-> | []]]]]; eauto.
  - by rewrite <- Hframe.
Qed.

(** ** The schema *)

Lemma requirementsSatisfied_agree o d1 d2 :
  (∀ reqs r, requirements o = Some reqs → r ∈ reqs → d1 !! r = d2 !! r) →
  requirementsSatisfied o d1 = requirementsSatisfied o d2.
Proof.
  unfold requirementsSatisfied. destruct (requirements o) as [reqs |]; [| done].
  intros H. specialize (H reqs).
  induction reqs as [| r reqs IH]; simpl; [done |].
  rewrite (H r) by (done || by left). f_equal.
  apply IH. intros r' ? Hr'. apply H; [done | by right].
Qed.

Lemma keys_read_prerequisite d o reqs r :
  requirements o = Some reqs → r ∈ reqs → r ∈ keys_read d o.
Proof.
  intros Hreq Hr. unfold keys_read. rewrite Hreq.
  apply elem_of_app. by left.
Qed.

Lemma keys_read_name d o :
  requirementsSatisfied o d = true → name o ∈ keys_read d o.
Proof.
  intros Hsat. unfold keys_read.
  destruct (requirements o); [| by left].
  rewrite Hsat. apply elem_of_app. right. by left.
Qed.

(** Case analysis on membership in the schema. *)
Ltac schema_cases H :=
  unfold ydl_options in H;
  repeat (apply elem_of_cons in H as [-> | H]);
  [.. | by apply elem_of_nil in H].

(** No prerequisite named in the schema is assigned by the derivation. *)
Lemma schema_requirements_unwritten o reqs r :
  o ∈ ydl_options → requirements o = Some reqs → r ∈ reqs → r ∉ written.
Proof.
  intros Ho. schema_cases Ho; simpl; try discriminate;
    intros [= <-]; unfold written; keys_solver.
Qed.

Lemma requirementsSatisfied_derived config derived o :
  build_options config = (derived, Ok tt) →
  o ∈ ydl_options →
  requirementsSatisfied o derived = requirementsSatisfied o config.
Proof.
  intros Hb Ho. apply requirementsSatisfied_agree. intros reqs r Hreq Hr.
  pose proof (tame_build_options config) as (Hframe & _ & _).
  rewrite Hb in Hframe. apply Hframe.
  by eapply schema_requirements_unwritten.
Qed.

(** A failed call either raised for a key the configuration lacks, or
    raised something else. *)
Lemma compile_raise config e :
  compile config = Raise e →
  e = OtherError ∨ ∃ k, e = KeyError k ∧ config !! k = None.
Proof.
  unfold compile. intros He.
  destruct e as [k |]; [right | by left].
  exists k. split; [done |].
  pose proof (tame_parse_copy config) as (_ & Hdom & Hkey).
  specialize (Hkey k He). specialize (Hdom k).
  destruct (config !! k); [| done].
  destruct Hdom as [? Hdom]; [eauto | congruence].
Qed.

Lemma compile_reads config tokens k :
  compile config = Ok tokens → reads config k → is_Some (config !! k).
Proof.
  intros Hc Hr. apply compile_ok_iff in Hc
    as (derived & args & Hb & Hm & Hargs & _).
  pose proof (tame_build_options config) as (Hframe & _ & _).
  rewrite Hb in Hframe. simpl in Hframe.
  pose proof (build_options_ok_inv _ _ Hb)
    as (fmt & first & smin & smax & Hsp & Hfmt & Htpl & Hfirst & Hsecond
        & Hmin & Humin & Hmax & Humax & Hdom).
  apply first_missing_None in Hm. rewrite Forall_forall in Hm.
  inversion Hr as [k' Hk | | | | | o reqs k' Ho Hreq Hk | o Ho Hsat]; subst;
    simplify_eq; eauto.
  - rewrite !elem_of_cons, elem_of_nil in Hk.
    destruct Hk as [-> | [-> | [-> | [-> | [-> | [-> | []]]]]]]; eauto.
  - apply Hdom, Hm. apply list_elem_of_In, in_flat_map.
    exists o. split; [by apply list_elem_of_In |].
    apply list_elem_of_In. by eapply keys_read_prerequisite.
  - apply Hdom, Hm. apply list_elem_of_In, in_flat_map.
    exists o. split; [by apply list_elem_of_In |].
    apply list_elem_of_In, keys_read_name.
    by rewrite (requirementsSatisfied_derived config).
Qed.

(** ** Keys a computation ignores *)

Lemma rebind_lookup_ne k b d k' : k ≠ k' → rebind k b d !! k' = d !! k'.
Proof. intros. unfold rebind. by rewrite lookup_partial_alter_ne. Qed.

Lemma rebind_insert k b d k' v :
  k ≠ k' → <[k' := v]> (rebind k b d) = rebind k b (<[k' := v]> d).
Proof.
  intros. unfold rebind. by rewrite insert_partial_alter_ne.
Qed.

Lemma ignores_dret {A} k (a : A) : ignores k (dret a).
Proof. by intros d b. Qed.

Lemma ignores_raise {A} k e : ignores k (@raise A e).
Proof. by intros d b. Qed.

Lemma ignores_helper {A} k (o : option A) : ignores k (helper o).
Proof. destruct o; [apply ignores_dret | apply ignores_raise]. Qed.

Lemma ignores_getitem k key : k ≠ key → ignores k (getitem key).
Proof.
  intros Hne d b. unfold getitem. rewrite rebind_lookup_ne by done.
  by destruct (d !! key).
Qed.

Lemma ignores_setitem k key v : k ≠ key → ignores k (setitem key v).
Proof.
  intros Hne d b. unfold setitem. simpl. by rewrite rebind_insert.
Qed.

Lemma ignores_at_dbind {A B} k (m : dictM A) (f : A → dictM B) d :
  ignores_at k m d →
  (∀ a, (m d).2 = Ok a → ignores_at k (f a) (m d).1) →
  ignores_at k (dbind m f) d.
Proof.
  intros Hm Hf b. unfold dbind. rewrite Hm.
  destruct (m d) as [d1 [a | e]]; simpl in *; [| done].
  by rewrite Hf.
Qed.

Lemma ignores_dbind {A B} k (m : dictM A) (f : A → dictM B) :
  ignores k m → (∀ a, ignores k (f a)) → ignores k (dbind m f).
Proof.
  intros Hm Hf d. apply ignores_at_dbind; [apply Hm |].
  intros a _. apply Hf.
Qed.

Lemma ignores_str_add k a b : ignores k (str_add a b).
Proof. destruct b; simpl; (apply ignores_dret || apply ignores_raise). Qed.

Lemma ignores_py_add k a b : ignores k (py_add a b).
Proof.
  destruct a; simpl; try apply ignores_raise.
  apply ignores_dbind; [apply ignores_str_add | intros; apply ignores_dret].
Qed.

Lemma ignores_py_split k v : ignores k (py_split v).
Proof. destruct v; simpl; (apply ignores_dret || apply ignores_raise). Qed.

Lemma ignores_build_options k :
  k ∉ ["save_path"; "output_format"; "output_template"; "video_format";
       "second_video_format"; "min_filesize"; "min_filesize_unit";
       "max_filesize"; "max_filesize_unit"] →
  ignores k build_options.
Proof.
  intros Hk.
  unfold build_options, _build_savepath,
    _build_videoformat, _build_filesizes,
    build_filesize.
  walk_binds ltac:(apply ignores_dbind)
    ltac:(first [ apply ignores_getitem; keys_solver
                | apply ignores_setitem; keys_solver
                | apply ignores_dret | apply ignores_raise
                | apply ignores_helper | apply ignores_py_add
                | apply ignores_str_add ]).
Qed.

Lemma first_missing_rebind k b d ks :
  k ∉ ks → first_missing (rebind k b d) ks = first_missing d ks.
Proof.
  induction ks as [| k' ks IH]; simpl; [done |].
  intros Hk. apply not_elem_of_cons in Hk as [Hne Hk].
  rewrite rebind_lookup_ne by done. rewrite IH by done. done.
Qed.

(** The loop ignores the own key of the entries whose requirements are not
    satisfied, provided no entry names that key as a prerequisite. *)
Lemma parse_options_rebind k opts acc d :
  Forall (λ o, (k ∉ default [] (requirements o))
               ∧ (name o = k → requirementsSatisfied o d = false)) opts →
  ignores_at k (parse_options opts acc) d.
Proof.
  intros Hopts b. rewrite !parse_options_eq. cbn [fst snd]. f_equal.
  assert (Hsat : ∀ o, o ∈ opts →
    requirementsSatisfied o (rebind k b d) = requirementsSatisfied o d).
  { intros o Ho. rewrite Forall_forall in Hopts.
    destruct (Hopts o Ho) as [Hreq _].
    apply requirementsSatisfied_agree. intros reqs r Heq Hr.
    apply rebind_lookup_ne. intros ->. by rewrite Heq in Hreq. }
  assert (Hkeys : flat_map (keys_read (rebind k b d)) opts
                  = flat_map (keys_read d) opts).
  { clear Hopts. induction opts as [| o opts IH]; simpl; [done |].
    rewrite IH by (intros; apply Hsat; by right). f_equal.
    unfold keys_read. rewrite Hsat by (by left). done. }
  assert (Hnot : k ∉ flat_map (keys_read d) opts).
  { clear Hsat Hkeys. induction Hopts as [| o opts [Hreq Hname] _ IH]; simpl.
    - apply not_elem_of_nil.
    - rewrite elem_of_app. intros [Hin | Hin]; [| done].
      unfold keys_read in Hin.
      destruct (requirements o) as [reqs |] eqn:Hreqs.
      + apply elem_of_app in Hin as [Hin | Hin]; [done |].
        destruct (requirementsSatisfied o d) eqn:E.
        * apply list_elem_of_singleton in Hin. specialize (Hname (eq_sym Hin)).
          congruence.
        * by apply elem_of_nil in Hin.
      + apply list_elem_of_singleton in Hin.
        specialize (Hname (eq_sym Hin)).
        unfold requirementsSatisfied in Hname. by rewrite Hreqs in Hname. }
  rewrite Hkeys, first_missing_rebind by done.
  destruct (first_missing d _); [done |]. do 2 f_equal.
  clear Hkeys Hnot. induction Hopts as [| o opts [Hreq Hname] _ IH]; simpl;
    [done |].
  rewrite IH by (intros; apply Hsat; by right). f_equal.
  unfold contribution. rewrite Hsat by (by left).
  destruct (decide (name o = k)) as [Heq | Hne].
  - rewrite (Hname Heq). simpl.
    by destruct (rebind k b d !! name o), (d !! name o).
  - by rewrite rebind_lookup_ne.
Qed.

(** ** The store *)

Lemma parse_eq store l d :
  store !! l = Some d →
  parse l store = (<[fresh (dom store) := (parse_copy d).1]> store, compile d).
Proof.
  intros Hl. unfold parse, compile. rewrite Hl.
  by destruct (parse_copy d).
Qed.

Lemma fresh_unbound (store : gmap positive (gmap string value)) :
  store !! fresh (dom store) = None.
Proof. apply not_elem_of_dom, is_fresh. Qed.

Lemma parse_frame store l l' :
  is_Some (store !! l') → (parse l store).1 !! l' = store !! l'.
Proof.
  intros Hl'. unfold parse.
  destruct (store !! l) as [d |]; [| done].
  destruct (parse_copy d) as [d' r]. simpl.
  apply lookup_insert_ne. intros <-.
  rewrite fresh_unbound in Hl'. by destruct Hl'.
Qed.

(** After the derivation nothing assigns the copy any more. *)
Lemma parse_copy_state d derived :
  build_options d = (derived, Ok tt) → (parse_copy d).1 = derived.
Proof.
  intros Hb. rewrite parse_copy_eq. unfold dbind at 1. rewrite Hb.
  unfold dbind at 1. rewrite parse_options_eq.
  destruct (first_missing derived _); [done |].
  unfold dbind, getitem.
  destruct (derived !! "cmd_args") as [[] |]; done.
Qed.

(** ** The claims about the option compiler *)

(** [is_boolean] holds exactly of the entries whose default is a truth
    value. *)
Lemma is_boolean_spec o :
  is_boolean o = true ↔ ∃ b, default_value o = VBool b.
Proof.
  unfold is_boolean. destruct (default_value o); simpl; split;
    (done || eauto || by intros [? [=]]).
Qed.

(** What an entry emits is what the loop body appends for it. *)
Lemma emits_contribution d o tokens :
  emits d o tokens → tokens = contribution d o.
Proof.
  unfold contribution.
  intros [Hsat | v Hsat Hv Hsame | v b Hsat Hv Hdiff Hb | v Hsat Hv Hdiff Hb].
  - rewrite Hsat. by destruct (d !! name o).
  - apply py_eq_same in Hsame. unfold py_ne.
    by rewrite Hv, Hsat, Hsame.
  - apply py_ne_differs in Hdiff. rewrite Hv, Hsat, Hdiff. simpl.
    replace (is_boolean o) with true; [done |].
    symmetry. apply is_boolean_spec. eauto.
  - apply py_ne_differs in Hdiff. rewrite Hv, Hsat, Hdiff. simpl.
    destruct (is_boolean o) eqn:E; [| done].
    apply is_boolean_spec in E as [b E]. by destruct (Hb b).
Qed.

Lemma contribution_emits d o :
  (requirementsSatisfied o d = true → is_Some (d !! name o)) →
  emits d o (contribution d o).
Proof.
  intros Hbound. unfold contribution.
  destruct (requirementsSatisfied o d) eqn:Hsat.
  - destruct Hbound as [v Hv]; [done |]. rewrite Hv. simpl.
    destruct (py_ne v (default_value o)) eqn:Hne.
    + apply py_ne_differs in Hne.
      destruct (is_boolean o) eqn:E.
      * apply is_boolean_spec in E as [b E]. by eapply emits_flag.
      * eapply emits_flag_value; [done .. |]. intros b Hb.
        assert (is_boolean o = true) by (apply is_boolean_spec; eauto).
        congruence.
    + eapply emits_default; [done .. |]. apply py_eq_same.
      unfold py_ne in Hne. by destruct (py_eq v (default_value o)).
  - replace (match d !! name o with Some _ => [] | None => [] end)
      with (@nil string) by (by destruct (d !! name o)).
    by apply emits_unsatisfied.
Qed.

(** The walk of a list of entries, one list of tokens per entry. *)
Lemma walk_emits d opts :
  first_missing d (flat_map (keys_read d) opts) = None →
  Forall2 (emits d) opts (map (contribution d) opts).
Proof.
  induction opts as [| o opts IH]; simpl; [constructor |].
  rewrite first_missing_app.
  destruct (first_missing d (keys_read d o)) eqn:Hm; [done |].
  intros Hrest. constructor; [| by apply IH].
  apply contribution_emits. intros Hsat.
  apply first_missing_None in Hm. rewrite Forall_forall in Hm.
  apply Hm. by apply keys_read_name.
Qed.

Lemma walk_emits_inv d opts parts :
  Forall2 (emits d) opts parts → concat parts = flat_map (contribution d) opts.
Proof.
  induction 1 as [| o tokens opts parts Ho _ IH]; simpl; [done |].
  by rewrite IH, (emits_contribution _ _ _ Ho).
Qed.

(** C1.  The tokens of a call are the leading token, then the tokens of
    one walk of the schema in declaration order, one list of tokens per
    entry, then the passthrough tokens.  In the walk an entry emits
    tokens exactly when its requirements are satisfied and its value in
    the derived configuration differs from its default; it then emits its
    flag, followed by the string form of the value exactly when the
    default is not a truth value ([emits]).  The call returns tokens
    exactly when the derivation succeeds, the walk finds every key it
    reads, and [cmd_args] is a string. *)
Theorem parse_walks_schema config tokens :
  compile config = Ok tokens ↔
  ∃ derived args parts,
    build_options config = (derived, Ok tt)
    ∧ first_missing derived (flat_map (keys_read derived) ydl_options) = None
    ∧ derived !! "cmd_args" = Some (VStr args)
    ∧ Forall2 (emits derived) ydl_options parts
    ∧ tokens = ["--newline"] ++ concat parts ++ split args.
Proof.
  rewrite compile_ok_iff. split.
  - intros (derived & args & Hb & Hm & Hargs & ->).
    exists derived, args, (map (contribution derived) ydl_options).
    repeat (split; [done |]). split; [by apply walk_emits |].
    by rewrite <- flat_map_concat_map.
  - intros (derived & args & parts & Hb & Hm & Hargs & Hparts & ->).
    exists derived, args. repeat (split; [done |]).
    by rewrite (walk_emits_inv _ _ _ Hparts).
Qed.

(** C2, amended.  In a configuration that binds the write-auto-subs and
    the write-subs options, the requirement check of the embed-subtitles
    entry succeeds whenever one of the two is truthy; hence, when one of
    the two is truthy and [embed_subs] is set to a value that differs from
    its default, the tokens the call returns contain the embed-subtitles
    flag. *)
Theorem embed_subs_requirements config auto subs :
  config !! "write_auto_subs" = Some auto →
  config !! "write_subs" = Some subs →
  truthy auto || truthy subs = true →
  check_requirements embed_subs_option config = (config, Ok true)
  ∧ ∀ embed tokens,
      config !! "embed_subs" = Some embed →
      ¬ same_value embed (VBool false) →
      compile config = Ok tokens →
      "--embed-subs" ∈ tokens.
Proof.
  intros Hauto Hsubs Htruthy.
  assert (Hsat : ∀ d, d !! "write_auto_subs" = Some auto →
            d !! "write_subs" = Some subs →
            requirementsSatisfied embed_subs_option d = true).
  { intros d H1 H2. unfold requirementsSatisfied. simpl.
    rewrite H1, H2. by rewrite orb_false_r. }
  split.
  - rewrite check_requirements_eq. simpl. rewrite Hauto, Hsubs.
    by rewrite Hsat.
  - intros embed tokens Hembed Hne%py_ne_differs Hc.
    apply compile_ok_iff in Hc as (derived & args & Hb & _ & _ & ->).
    pose proof (tame_build_options config) as (Hframe & _ & _).
    rewrite Hb in Hframe. simpl in Hframe.
    apply elem_of_app. right. apply elem_of_app. left.
    apply list_elem_of_In, in_flat_map. exists embed_subs_option. split.
    + apply list_elem_of_In. unfold ydl_options, embed_subs_option.
      keys_solver.
    + apply list_elem_of_In. unfold contribution.
      rewrite Hsat by (rewrite Hframe; [done | unfold written; keys_solver]).
      simpl. rewrite Hframe by (unfold written; keys_solver).
      rewrite Hembed, Hne. by left.
Qed.

(** ** Configurations at their defaults *)

Lemma holds_default_bound config o :
  holds_default config o = true → is_Some (config !! name o).
Proof. unfold holds_default. destruct (config !! name o); [eauto | done]. Qed.

Lemma contribution_default d o :
  holds_default d o = true → contribution d o = [].
Proof.
  unfold holds_default, contribution, py_ne.
  destruct (d !! name o); [| done].
  intros ->. by rewrite andb_false_r.
Qed.

Lemma keys_read_subseteq d o :
  keys_read d o ⊆ default [] (requirements o) ++ [name o].
Proof.
  unfold keys_read. destruct (requirements o) as [reqs |]; simpl; [| done].
  destruct (requirementsSatisfied o d); [done |].
  rewrite app_nil_r. intros k Hk. apply elem_of_app. by left.
Qed.

(** Every key the loop can read is the name of a schema entry. *)
Lemma schema_keys_named o k :
  o ∈ ydl_options →
  k ∈ default [] (requirements o) ++ [name o] →
  k ∈ map name ydl_options.
Proof.
  intros Ho. schema_cases Ho; simpl; unfold ydl_options; simpl; keys_solver.
Qed.

(** The save-path step binds [save_path] to the stripped save path joined
    with the template that [output_format] selects. *)
Lemma build_savepath_joined d raw stripped template sp :
  d !! "save_path" = Some raw →
  remove_shortcuts raw = Some stripped →
  naming_template d = Some template →
  path_join stripped template = Some sp →
  _build_savepath d = (<["save_path" := sp]> d, Ok tt).
Proof.
  intros Hraw Hstripped Htemplate Hsp.
  unfold naming_template in Htemplate.
  unfold _build_savepath, dbind, getitem.
  rewrite Hraw. simpl. rewrite Hstripped. simpl.
  destruct (d !! "output_format") as [fmt |] eqn:Hfmt; [| done].
  simpl. rewrite !py_eq_str.
  destruct (bool_decide (fmt = VStr "id")).
  { injection Htemplate as <-. by rewrite Hsp. }
  rewrite Hfmt. simpl. rewrite py_eq_str.
  destruct (bool_decide (fmt = VStr "title")).
  { injection Htemplate as <-. by rewrite Hsp. }
  rewrite Htemplate. simpl. by rewrite Hsp.
Qed.

(** In a configuration at its defaults the last two derivation steps
    change nothing and the walk emits the save path alone. *)
Lemma compile_defaults_derived config derived sp args :
  forallb (holds_default config) ydl_options = true →
  _build_savepath config = (derived, Ok tt) →
  derived !! "save_path" = Some sp →
  config !! "cmd_args" = Some (VStr args) →
  compile config =
    Ok (["--newline"]
        ++ (if py_ne sp (VStr "") then ["-o"; to_string sp] else [])
        ++ split args).
Proof.
  intros Hall Hsp Hlook Hargs.
  rewrite forallb_forall in Hall.
  assert (Hdef : ∀ o, o ∈ ydl_options → holds_default config o = true).
  { intros o Ho. by apply Hall, list_elem_of_In. }
  clear Hall.
  apply build_savepath_ok_inv in Hsp as Hinv.
  destruct Hinv as (_ & _ & sp' & _ & _ & _ & ->).
  rewrite lookup_insert_eq in Hlook. injection Hlook as ->.
  set (derived := <["save_path" := sp]> config) in *.
  assert (Hother : ∀ k, k ≠ "save_path" → derived !! k = config !! k).
  { intros k Hk. subst derived. by rewrite lookup_insert_ne. }
  (* the other two steps change nothing *)
  assert (Hb : build_options config = (derived, Ok tt)).
  { unfold build_options, _build_filesizes.
    rewrite (dbind_ok _ _ _ _ _ Hsp).
    assert (Hvf : holds_default config
              (mkOptionHolder "video_format" "-f" (VStr "0") None) = true)
      by (apply Hdef; unfold ydl_options; keys_solver).
    assert (Hmin : holds_default config
              (mkOptionHolder "min_filesize" "--min-filesize" (VInt 0) None)
              = true)
      by (apply Hdef; unfold ydl_options; keys_solver).
    assert (Hmax : holds_default config
              (mkOptionHolder "max_filesize" "--max-filesize" (VInt 0) None)
              = true)
      by (apply Hdef; unfold ydl_options; keys_solver).
    unfold holds_default in Hvf, Hmin, Hmax. simpl in Hvf, Hmin, Hmax.
    destruct (config !! "video_format") as [vf |] eqn:Evf; [| done].
    destruct (config !! "min_filesize") as [smin |] eqn:Emin; [| done].
    destruct (config !! "max_filesize") as [smax |] eqn:Emax; [| done].
    erewrite dbind_ok; [| apply (build_videoformat_single _ vf);
                          [by rewrite Hother | unfold py_ne; by rewrite Hvf]].
    erewrite dbind_ok; [| apply (build_filesize_falsy _ _ _ smin);
                          [by rewrite Hother | by apply py_eq_zero_falsy]].
    apply (build_filesize_falsy _ _ _ smax);
      [by rewrite Hother | by apply py_eq_zero_falsy]. }
  apply compile_ok_iff. exists derived, args.
  split; [done |]. split; [| split].
  - apply first_missing_None, Forall_forall. intros k Hk.
    apply list_elem_of_In, in_flat_map in Hk as (o & Ho & Hk).
    apply list_elem_of_In in Ho, Hk.
    apply keys_read_subseteq in Hk.
    apply (schema_keys_named _ _ Ho), list_elem_of_fmap in Hk
      as (o' & -> & Ho').
    destruct (decide (name o' = "save_path")) as [-> | Hne].
    + subst derived. rewrite lookup_insert_eq. eauto.
    + rewrite Hother by done. by apply holds_default_bound, Hdef.
  - by rewrite Hother.
  - do 2 f_equal. symmetry.
    set (g := λ o : OptionHolder,
           if String.eqb (name o) "save_path"
           then (if py_ne sp (VStr "") then ["-o"; to_string sp] else [])
           else []).
    transitivity (flat_map g ydl_options).
    + apply flat_map_ext_elem. intros o Ho.
      pose proof (Hdef o Ho) as Hd.
      schema_cases Ho; unfold g; simpl;
        try (apply contribution_default; unfold holds_default in *;
             simpl in *; by rewrite Hother).
      unfold contribution. simpl.
      subst derived. rewrite lookup_insert_eq.
      by destruct (py_ne sp (VStr "")).
    + unfold g. simpl. by rewrite app_nil_r.
Qed.

(** C5, amended.  When every schema option holds its default value and
    [cmd_args] is a string, the call returns the leading token, then,
    unless the derived save path is the empty string, the flag [-o] and
    the string form of the derived save path, then the
    whitespace-separated tokens of [cmd_args], and nothing else.  The
    derived save path [sp] is the stripped save path, the default save
    path being empty, joined with the file-naming template that
    [output_format] selects. *)
Theorem compile_default_config config stripped template sp args :
  forallb (holds_default config) ydl_options = true →
  remove_shortcuts (VStr "") = Some stripped →
  naming_template config = Some template →
  path_join stripped template = Some sp →
  config !! "cmd_args" = Some (VStr args) →
  compile config =
    Ok (["--newline"]
        ++ (if bool_decide (sp = VStr "") then [] else ["-o"; to_string sp])
        ++ split args).
Proof.
  intros Hall Hstripped Htemplate Hsp Hargs.
  assert (Hraw : config !! "save_path" = Some (VStr "")).
  { rewrite forallb_forall in Hall.
    assert (Hin : In (mkOptionHolder "save_path" "-o" (VStr "") None)
                    ydl_options)
      by (apply list_elem_of_In; unfold ydl_options; keys_solver).
    apply Hall in Hin. unfold holds_default in Hin. simpl in Hin.
    destruct (config !! "save_path") as [raw |]; [| done].
    f_equal. by apply py_eq_str_inv. }
  rewrite (compile_defaults_derived config
             (<["save_path" := sp]> config) sp args);
    [| done | by eapply build_savepath_joined
       | by rewrite lookup_insert_eq | done].
  unfold py_ne. rewrite py_eq_str.
  by destruct (bool_decide (sp = VStr "")).
Qed.

(** ** Failures that are not missing keys *)

Lemma dbind_raise_inv {A B} (m : dictM A) (f : A → dictM B) d d' e :
  dbind m f d = (d', Raise e) →
  m d = (d', Raise e) ∨ ∃ d1 a, m d = (d1, Ok a) ∧ f a d1 = (d', Raise e).
Proof.
  unfold dbind. destruct (m d) as [d1 [a | e']]; intros H.
  - right. by exists d1, a.
  - left. by injection H as -> ->.
Qed.

Lemma build_savepath_other d d' :
  _build_savepath d = (d', Raise OtherError) → ill_typed d.
Proof.
  unfold _build_savepath, dbind, getitem.
  destruct (d !! "save_path") as [raw |] eqn:Hraw; simpl; [| done].
  destruct (remove_shortcuts raw) as [stripped |] eqn:Hstripped; simpl;
    [| intros _; by eapply ill_save_path].
  destruct (d !! "output_format") as [fmt |] eqn:Hfmt; simpl; [| done].
  assert (Hill : ∀ template,
            naming_template d = Some template →
            path_join stripped template = None → ill_typed d)
    by (intros template; by apply (ill_template d raw stripped)).
  unfold naming_template in Hill. rewrite Hfmt in Hill.
  rewrite py_eq_str.
  destruct (bool_decide (fmt = VStr "id")).
  { destruct (path_join stripped _) eqn:Hjoin; simpl; [done |].
    intros _. by eapply Hill. }
  rewrite Hfmt. simpl. rewrite py_eq_str.
  destruct (bool_decide (fmt = VStr "title")).
  { destruct (path_join stripped _) eqn:Hjoin; simpl; [done |].
    intros _. by eapply Hill. }
  destruct (d !! "output_template") as [template |]; simpl; [| done].
  destruct (path_join stripped template) eqn:Hjoin; simpl; [done |].
  intros _. by eapply Hill.
Qed.

Lemma build_videoformat_other d d' :
  _build_videoformat d = (d', Raise OtherError) →
  ∃ first second,
    d !! "video_format" = Some first
    ∧ d !! "second_video_format" = Some second
    ∧ py_ne first (VStr "0") = true
    ∧ py_ne second (VStr "0") = true
    ∧ ∀ a b, ¬ (first = VStr a ∧ second = VStr b).
Proof.
  unfold _build_videoformat, dbind, getitem.
  destruct (d !! "video_format") as [first |] eqn:Hfirst; simpl; [| done].
  destruct (py_ne first (VStr "0")) eqn:Hne1; simpl; [| done].
  destruct (d !! "second_video_format") as [second |] eqn:Hsecond; simpl;
    [| done].
  destruct (py_ne second (VStr "0")) eqn:Hne2; simpl; [| done].
  rewrite Hfirst. simpl.
  intros H. exists first, second. repeat (split; [done |]).
  intros a b [-> ->]. simpl in H. rewrite Hsecond in H. by simpl in H.
Qed.

Lemma build_filesize_other key unit_key d d' :
  build_filesize key unit_key d = (d', Raise OtherError) →
  ∃ size unit,
    d !! key = Some size
    ∧ truthy size = true
    ∧ d !! unit_key = Some unit
    ∧ ∀ text, unit ≠ VStr text.
Proof.
  unfold build_filesize, dbind, getitem.
  destruct (d !! key) as [size |] eqn:Hsize; simpl; [| done].
  destruct (truthy size) eqn:Htruthy; simpl; [| done].
  rewrite Hsize. simpl.
  destruct (d !! unit_key) as [unit |] eqn:Hunit; simpl; [| done].
  intros H. exists size, unit. repeat (split; [done |]).
  intros text ->. by simpl in H.
Qed.

(** A derivation that raises something else than a [KeyError] ran on an
    ill-typed configuration. *)
Lemma build_options_other config d :
  build_options config = (d, Raise OtherError) → ill_typed config.
Proof.
  unfold build_options, _build_filesizes. intros H.
  apply dbind_raise_inv in H as [H | (d1 & [] & Hsp & H)];
    [by eapply build_savepath_other |].
  pose proof (tame_build_savepath config) as (F1 & _ & _).
  rewrite Hsp in F1. simpl in F1.
  apply dbind_raise_inv in H as [H | (d2 & [] & Hvf & H)].
  { apply build_videoformat_other in H
      as (first & second & Hfirst & Hsecond & Hne1 & Hne2 & Hill).
    rewrite F1 in Hfirst, Hsecond by keys_solver.
    by eapply ill_video_format. }
  pose proof (tame_build_videoformat d1) as (F2 & _ & _).
  rewrite Hvf in F2. simpl in F2.
  apply dbind_raise_inv in H as [H | (d3 & [] & Hmin & H)].
  { apply build_filesize_other in H
      as (size & unit & Hsize & Htruthy & Hunit & Hill).
    rewrite F2, F1 in Hsize, Hunit by keys_solver.
    apply (ill_filesize_unit config
             (mkOptionHolder "min_filesize" "--min-filesize" (VInt 0) None)
             "min_filesize_unit" size unit); try done.
    unfold filesize_options. keys_solver. }
  pose proof (tame_build_filesize "min_filesize" "min_filesize_unit" d2)
    as (F3 & _ & _).
  rewrite Hmin in F3. simpl in F3.
  apply build_filesize_other in H
    as (size & unit & Hsize & Htruthy & Hunit & Hill).
  rewrite F3, F2, F1 in Hsize, Hunit by keys_solver.
  apply (ill_filesize_unit config
           (mkOptionHolder "max_filesize" "--max-filesize" (VInt 0) None)
           "max_filesize_unit" size unit); try done.
  unfold filesize_options. keys_solver.
Qed.

(** When the derivation succeeds, the walk finds every key it reads and
    [cmd_args] is bound, the configuration binds every key the call
    reads. *)
Lemma reads_bound config derived k :
  build_options config = (derived, Ok tt) →
  first_missing derived (flat_map (keys_read derived) ydl_options) = None →
  is_Some (derived !! "cmd_args") →
  reads config k →
  is_Some (config !! k).
Proof.
  intros Hb Hm Hargs Hr.
  pose proof (tame_build_options config) as (Hframe & _ & _).
  rewrite Hb in Hframe. simpl in Hframe.
  pose proof (build_options_ok_inv _ _ Hb)
    as (fmt & first & smin & smax & Hsp & Hfmt & Htpl & Hfirst & Hsecond
        & Hmin & Humin & Hmax & Humax & Hdom).
  apply first_missing_None in Hm. rewrite Forall_forall in Hm.
  inversion Hr as [k' Hk | | | | | o reqs k' Ho Hreq Hk | o Ho Hsat]; subst;
    simplify_eq; eauto.
  - rewrite !elem_of_cons, elem_of_nil in Hk.
    destruct Hk as [-> | [-> | [-> | [-> | [-> | [-> | []]]]]]]; eauto.
  - apply Hdom, Hm. apply list_elem_of_In, in_flat_map.
    exists o. split; [by apply list_elem_of_In |].
    apply list_elem_of_In. by eapply keys_read_prerequisite.
  - apply Hdom, Hm. apply list_elem_of_In, in_flat_map.
    exists o. split; [by apply list_elem_of_In |].
    apply list_elem_of_In, keys_read_name.
    by rewrite (requirementsSatisfied_derived config).
Qed.

(** A call that raises something else than a [KeyError] ran on an
    ill-typed configuration, or read every key and found [cmd_args] bound
    to something that is not a string. *)
Lemma compile_other config :
  compile config = Raise OtherError →
  ill_typed config ∨ ∀ k, reads config k → is_Some (config !! k).
Proof.
  unfold compile. rewrite parse_copy_eq. unfold dbind at 1.
  destruct (build_options config) as [derived [[] | e]] eqn:Hb; cbn [snd].
  - unfold dbind at 1. rewrite parse_options_eq.
    destruct (first_missing derived _) as [k' |] eqn:Hm; cbn [snd];
      [done |].
    unfold dbind, getitem.
    destruct (derived !! "cmd_args") as [v |] eqn:Hc; simpl; [| done].
    intros _. right. intros k. by apply (reads_bound config derived).
  - intros [= ->]. left. by eapply build_options_other.
Qed.

(** C6, amended.  When the configuration lacks a key that the call reads
    in it ([reads]: the auxiliary keys [output_template],
    [second_video_format] and the two unit suffixes count only when the
    step that uses them reaches them), the call returns no tokens: it
    raises a [KeyError] for a key the configuration lacks, unless the
    configuration is ill-typed ([ill_typed]: the path helpers reject the
    save path or the template, a format selector to be merged is not a
    string, or the unit of a truthy threshold is not a string), in which
    case it raises a [KeyError] for a key the configuration lacks or the
    error of the ill-typed derivation step. *)
Theorem missing_key_raises config k :
  reads config k →
  config !! k = None →
  (∃ k', compile config = Raise (KeyError k') ∧ config !! k' = None)
  ∨ (compile config = Raise OtherError ∧ ill_typed config).
Proof.
  intros Hr Hk.
  destruct (compile config) as [tokens | [k' |]] eqn:Hc.
  - apply (compile_reads _ _ k) in Hc; [| done].
    rewrite Hk in Hc. by destruct Hc.
  - left. exists k'. split; [done |].
    by apply compile_raise in Hc as [| (? & [= <-] & ?)].
  - right. split; [done |].
    apply compile_other in Hc as [| Hall]; [done |].
    specialize (Hall k Hr). rewrite Hk in Hall. by destruct Hall.
Qed.

(** C7.  Two calls in a row on identical configurations, the same
    dictionary or two dictionaries with the same items, return the same
    result: the second call sees nothing of the first. *)
Theorem parse_deterministic store l1 l2 d :
  store !! l1 = Some d →
  store !! l2 = Some d →
  (parse l2 (parse l1 store).1).2 = (parse l1 store).2.
Proof.
  intros H1 H2.
  assert (H2' : (parse l1 store).1 !! l2 = Some d)
    by (rewrite parse_frame; eauto).
  by rewrite (parse_eq _ _ _ H2'), (parse_eq _ _ _ H1).
Qed.

(** C8.  A call leaves its input as it was: afterwards the input
    dictionary, like every other dictionary of the store, has the items
    it had before.  The store has gained one dictionary, the copy, and
    after a successful derivation the copy is the derived
    configuration. *)
Theorem parse_preserves_input store l d :
  store !! l = Some d →
  (parse l store).1 !! l = Some d
  ∧ (∀ l', is_Some (store !! l') → (parse l store).1 !! l' = store !! l')
  ∧ ∃ copy d',
      store !! copy = None
      ∧ (parse l store).1 = <[copy := d']> store
      ∧ (∀ derived, build_options d = (derived, Ok tt) → d' = derived).
Proof.
  intros Hl. split; [| split].
  - rewrite parse_frame; eauto.
  - intros l'. apply parse_frame.
  - exists (fresh (dom store)), (parse_copy d).1.
    split; [apply fresh_unbound |]. split.
    + by rewrite (parse_eq _ _ _ Hl).
    + apply parse_copy_state.
Qed.

(** C10.  When the requirement check of a schema entry fails, the call
    does not read the entry's own key: its result is the same whatever
    the configuration binds the key to, and the same when the key is
    absent; in particular the call never raises [KeyError] for that
    key. *)
Theorem gated_key_not_read config o reqs :
  o ∈ ydl_options →
  requirements o = Some reqs →
  requirementsSatisfied o config = false →
  (∀ binding, compile (rebind (name o) binding config) = compile config)
  ∧ (∀ binding,
       compile (rebind (name o) binding config) ≠ Raise (KeyError (name o))).
Proof.
  intros Ho Hreq Hsat.
  assert (Hsame : ∀ binding,
    compile (rebind (name o) binding config) = compile config).
  { intros binding. unfold compile.
    enough (Hig : ignores_at (name o) parse_copy config) by by rewrite Hig.
    intros b. rewrite !parse_copy_eq. revert b.
    apply ignores_at_dbind.
    { apply ignores_build_options.
      schema_cases Ho; simpl in *; try discriminate; keys_solver. }
    intros [] Hb.
    assert (Hb' : build_options config = ((build_options config).1, Ok tt))
      by (destruct (build_options config); simpl in *; by subst).
    apply ignores_at_dbind.
    - apply parse_options_rebind, Forall_forall. intros o' Ho'. split.
      + schema_cases Ho; simpl in *; try discriminate;
          schema_cases Ho'; simpl; keys_solver.
      + intros Hname.
        assert (o' = o) as ->.
        { schema_cases Ho; simpl in *; try discriminate;
            schema_cases Ho'; simpl in *; done. }
        by rewrite (requirementsSatisfied_derived _ _ _ Hb').
    - intros options_list _.
      assert (name o ≠ "cmd_args")
        by (schema_cases Ho; simpl in *; done).
      assert (Htail : ignores (name o)
        (let* cmd_args := getitem "cmd_args" in
         let* args := py_split cmd_args in
         dret (options_list ++ args))).
      { apply ignores_dbind; [by apply ignores_getitem | intros cmd_args].
        apply ignores_dbind; [apply ignores_py_split | intros args].
        apply ignores_dret. }
      apply Htail. }
  split; [done |].
  intros binding Hraise.
  rewrite Hsame, <- (Hsame (Some VNone)) in Hraise.
  apply compile_raise in Hraise as [| (k & [= <-] & Hk)]; [done |].
  unfold rebind in Hk. by rewrite lookup_partial_alter_eq in Hk.
Qed.

(** ** Further facts about the parser *)

(** *** The keys a call asks for *)

Lemma asks_dret keys {A} (a : A) : asks keys (dret a).
Proof. by intros d k. Qed.

Lemma asks_raise_other keys {A} : asks keys (@raise A OtherError).
Proof. by intros d k. Qed.

Lemma asks_helper keys {A} (o : option A) : asks keys (helper o).
Proof. destruct o; [apply asks_dret | apply asks_raise_other]. Qed.

Lemma asks_getitem keys key : key ∈ keys → asks keys (getitem key).
Proof.
  intros Hin d k. unfold getitem. destruct (d !! key); simpl; [done |].
  by intros [= <-].
Qed.

Lemma asks_setitem keys key v : asks keys (setitem key v).
Proof. by intros d k. Qed.

Lemma asks_dbind keys {A B} (m : dictM A) (f : A → dictM B) :
  asks keys m → (∀ a, asks keys (f a)) → asks keys (dbind m f).
Proof.
  intros Hm Hf d k. unfold dbind. specialize (Hm d k).
  destruct (m d) as [d1 [a | e]]; simpl in *.
  - apply Hf.
  - intros [= ->]. by apply Hm.
Qed.

Lemma asks_str_add keys a b : asks keys (str_add a b).
Proof. destruct b; simpl; (apply asks_dret || apply asks_raise_other). Qed.

Lemma asks_py_add keys a b : asks keys (py_add a b).
Proof.
  destruct a; simpl; try apply asks_raise_other.
  apply asks_dbind; [apply asks_str_add | intros; apply asks_dret].
Qed.

Lemma asks_py_split keys v : asks keys (py_split v).
Proof. destruct v; simpl; (apply asks_dret || apply asks_raise_other). Qed.

Lemma asks_parse_options opts acc :
  opts ⊆ ydl_options → asks config_keys (parse_options opts acc).
Proof.
  intros Hsub d k. rewrite parse_options_eq. simpl.
  destruct (first_missing d _) as [k' |] eqn:E; [| done].
  intros [= <-]. apply first_missing_Some in E as [Hin _].
  apply list_elem_of_In, in_flat_map in Hin as (o & Ho & Hin).
  apply list_elem_of_In in Ho, Hin. apply keys_read_subseteq in Hin.
  unfold config_keys. apply elem_of_app. left.
  apply (schema_keys_named o); [by apply Hsub | done].
Qed.

Lemma asks_parse_copy : asks config_keys parse_copy.
Proof.
  unfold parse_copy, _build_savepath, _build_videoformat, _build_filesizes,
    build_filesize.
  walk_binds ltac:(apply asks_dbind)
    ltac:(first [ apply asks_getitem; unfold config_keys, ydl_options;
                  simpl; keys_solver
                | apply asks_setitem | apply asks_dret | apply asks_helper
                | apply asks_py_add | apply asks_str_add | apply asks_py_split
                | by apply asks_parse_options ]).
Qed.

(** X1.  A configuration that binds the names of the schema and the six
    auxiliary keys never makes a call raise [KeyError]: the call returns
    tokens or fails on an ill-typed value. *)
Theorem complete_config_no_key_error config :
  Forall (λ k, is_Some (config !! k)) config_keys →
  (∃ tokens, compile config = Ok tokens) ∨ compile config = Raise OtherError.
Proof.
  intros Hall. destruct (compile config) as [tokens | [k |]] eqn:Hc; eauto.
  exfalso. pose proof (compile_raise _ _ Hc) as [| (k' & [= <-] & Hk)]; [done |].
  rewrite Forall_forall in Hall.
  destruct (Hall k) as [v Hv]; [| congruence].
  by apply (asks_parse_copy config).
Qed.

(** X2.  The derivation rebinds keys and does nothing else: the derived
    configuration binds the keys the input binds, and binds every key
    other than [save_path], [video_format], [min_filesize] and
    [max_filesize] to the value it had. *)
Theorem derivation_frame config derived :
  build_options config = (derived, Ok tt) →
  dom derived = dom config
  ∧ (∀ k, k ∉ written → derived !! k = config !! k).
Proof.
  intros Hb.
  pose proof (tame_build_options config) as (Hframe & Hdom & _).
  rewrite Hb in Hframe, Hdom. simpl in *.
  pose proof (build_options_ok_inv _ _ Hb)
    as (? & ? & ? & ? & _ & _ & _ & _ & _ & _ & _ & _ & _ & Hdom').
  split; [| done]. apply set_eq. intros k. rewrite !elem_of_dom. split; auto.
Qed.

(** *** Requirements *)

(** X3.  An entry declared with an empty list of requirements is never
    emitted, whatever the configuration holds: [any([])] is false. *)
Theorem empty_requirements_never_emitted o acc d :
  requirements o = Some [] →
  parse_option o acc d = (d, Ok acc).
Proof.
  intros Hreq. rewrite parse_option_eq. unfold keys_read, contribution.
  rewrite Hreq. unfold requirementsSatisfied. rewrite Hreq. simpl.
  destruct (d !! name o); by rewrite app_nil_r.
Qed.

(** X4.  The requirement check reads every prerequisite before it looks at
    any value: a prerequisite that is missing raises [KeyError] even when
    another prerequisite is truthy. *)
Theorem requirements_all_read o reqs d k req v :
  requirements o = Some reqs →
  first_missing d reqs = Some k →
  req ∈ reqs → d !! req = Some v → truthy v = true →
  check_requirements o d = (d, Raise (KeyError k))
  ∧ requirementsSatisfied o d = true.
Proof.
  intros Hreq Hmiss Hin Hv Htruthy. split.
  - rewrite check_requirements_eq, Hreq. simpl. by rewrite Hmiss.
  - unfold requirementsSatisfied. rewrite Hreq.
    apply existsb_exists. exists req. split; [by apply list_elem_of_In |].
    by rewrite Hv.
Qed.

(** *** The size of the result *)

Lemma contribution_length d o :
  (length (contribution d o) ≤ most_tokens o)%nat.
Proof.
  unfold contribution, most_tokens. destruct (d !! name o); [| simpl; lia].
  destruct (_ && _); [| simpl; lia]. destruct (is_boolean o); simpl; lia.
Qed.

Lemma flat_map_length_le {A B} (f : A → list B) (g : A → nat) l :
  (∀ x, (length (f x) ≤ g x)%nat) →
  (length (flat_map f l) ≤ list_sum (map g l))%nat.
Proof.
  intros H. induction l as [| x l IH]; simpl; [lia |].
  rewrite length_app. specialize (H x). lia.
Qed.

(** X5.  The tokens of a call start with [--newline]; besides it and the
    passthrough tokens there are at most 45 of them, one for each of the
    11 boolean entries and two for each of the 17 others. *)
Theorem compile_length config tokens :
  compile config = Ok tokens →
  ∃ args,
    config !! "cmd_args" = Some (VStr args)
    ∧ tokens !! 0%nat = Some "--newline"
    ∧ (1 + length (split args) ≤ length tokens ≤ 46 + length (split args))%nat.
Proof.
  intros (derived & args & Hb & _ & Hargs & ->)%compile_ok_iff.
  exists args. split.
  { pose proof (tame_build_options config) as (Hframe & _ & _).
    rewrite Hb in Hframe. rewrite <- Hframe; [done |].
    unfold written. keys_solver. }
  split; [done |].
  pose proof (flat_map_length_le (contribution derived) most_tokens
                ydl_options (contribution_length derived)) as Hle.
  change (list_sum (map most_tokens ydl_options)) with 45%nat in Hle.
  rewrite !length_app. change (length ["--newline"]) with 1%nat. lia.
Qed.

(** *** Auxiliary keys a call does not get to *)

Lemma ignores_build_savepath k :
  k ∉ ["save_path"; "output_format"; "output_template"] →
  ignores k _build_savepath.
Proof.
  intros Hk. unfold _build_savepath.
  walk_binds ltac:(apply ignores_dbind)
    ltac:(first [ apply ignores_getitem; keys_solver
                | apply ignores_setitem; keys_solver
                | apply ignores_helper ]).
Qed.

Lemma ignores_build_videoformat k :
  k ∉ ["video_format"; "second_video_format"] →
  ignores k _build_videoformat.
Proof.
  intros Hk. unfold _build_videoformat.
  walk_binds ltac:(apply ignores_dbind)
    ltac:(first [ apply ignores_getitem; keys_solver
                | apply ignores_setitem; keys_solver
                | apply ignores_dret | apply ignores_py_add ]).
Qed.

Lemma ignores_build_filesize key unit_key k :
  k ≠ key → k ≠ unit_key → ignores k (build_filesize key unit_key).
Proof.
  intros Hkey Hunit. unfold build_filesize.
  walk_binds ltac:(apply ignores_dbind)
    ltac:(first [ by apply ignores_getitem
                | by apply ignores_setitem
                | apply ignores_dret | apply ignores_str_add ]).
Qed.

Lemma build_savepath_fixed_template d fmt :
  d !! "output_format" = Some fmt →
  py_eq fmt (VStr "id") || py_eq fmt (VStr "title") = true →
  _build_savepath d
  = match d !! "save_path" with
    | None => (d, Raise (KeyError "save_path"))
    | Some raw =>
        match remove_shortcuts raw with
        | None => (d, Raise OtherError)
        | Some p =>
            match path_join p
                    (VStr (if py_eq fmt (VStr "id") then "%(id)s.%(ext)s"
                           else "%(title)s.%(ext)s")) with
            | None => (d, Raise OtherError)
            | Some sp => (<["save_path" := sp]> d, Ok tt)
            end
        end
    end.
Proof.
  intros Hfmt Hor. unfold _build_savepath, dbind, getitem.
  destruct (d !! "save_path") as [raw |]; simpl; [| done].
  destruct (remove_shortcuts raw) as [p |]; simpl; [| done].
  rewrite Hfmt.
  destruct (py_eq fmt (VStr "id")); simpl in *.
  - by destruct (path_join p _).
  - rewrite Hfmt, Hor. simpl. by destruct (path_join p _).
Qed.

Lemma ignores_at_build_savepath d fmt :
  d !! "output_format" = Some fmt →
  py_eq fmt (VStr "id") || py_eq fmt (VStr "title") = true →
  ignores_at "output_template" _build_savepath d.
Proof.
  intros Hfmt Hor b.
  rewrite !(build_savepath_fixed_template _ fmt)
    by (done || by rewrite rebind_lookup_ne).
  rewrite rebind_lookup_ne by done.
  destruct (d !! "save_path") as [raw |]; [| done].
  destruct (remove_shortcuts raw) as [p |]; [| done].
  destruct (path_join p _); [| done].
  simpl. by rewrite rebind_insert.
Qed.

Lemma ignores_at_build_videoformat d first :
  d !! "video_format" = Some first →
  py_ne first (VStr "0") = false →
  ignores_at "second_video_format" _build_videoformat d.
Proof.
  intros Hfirst Hne b. unfold _build_videoformat, dbind, getitem.
  rewrite !rebind_lookup_ne by done. by rewrite Hfirst, Hne.
Qed.

Lemma ignores_at_build_filesize key unit_key d size :
  unit_key ≠ key →
  d !! key = Some size →
  truthy size = false →
  ignores_at unit_key (build_filesize key unit_key) d.
Proof.
  intros Hne Hsize Hfalsy b. unfold build_filesize, dbind, getitem.
  rewrite !rebind_lookup_ne by done. by rewrite Hsize, Hfalsy.
Qed.

Lemma ignores_at_build_options k config :
  ignores_at k _build_savepath config →
  ignores_at k _build_videoformat (_build_savepath config).1 →
  ignores_at k (build_filesize "min_filesize" "min_filesize_unit")
    (_build_videoformat (_build_savepath config).1).1 →
  ignores_at k (build_filesize "max_filesize" "max_filesize_unit")
    (build_filesize "min_filesize" "min_filesize_unit"
       (_build_videoformat (_build_savepath config).1).1).1 →
  ignores_at k build_options config.
Proof.
  intros Hsp Hvf Hmin Hmax. unfold build_options, _build_filesizes.
  apply ignores_at_dbind; [done | intros _ _].
  apply ignores_at_dbind; [done | intros _ _].
  apply ignores_at_dbind; [done | intros _ _]. done.
Qed.

(** The rest of a call ignores a key that the derivation ignores and that
    neither the schema nor the passthrough step names. *)
Lemma compile_ignores k config :
  ignores_at k build_options config →
  k ∉ config_keys ∨ k ∈ ["output_template"; "second_video_format";
                         "min_filesize_unit"; "max_filesize_unit"] →
  ∀ binding, compile (rebind k binding config) = compile config.
Proof.
  intros Hbuild Hk binding. unfold compile.
  enough (Hig : ignores_at k parse_copy config) by by rewrite Hig.
  assert (Hschema : ∀ o, o ∈ ydl_options →
            k ∉ default [] (requirements o) ++ [name o]).
  { intros o Ho Hin. apply (schema_keys_named o) in Hin; [| done].
    destruct Hk as [Hk | Hk].
    - apply Hk. unfold config_keys. apply elem_of_app. by left.
    - revert Hin. unfold ydl_options. simpl. keys_solver. }
  assert (Hargs : k ≠ "cmd_args").
  { destruct Hk as [Hk | Hk]; [| keys_solver].
    intros ->. apply Hk. unfold config_keys. apply elem_of_app. right.
    keys_solver. }
  intros b. rewrite !parse_copy_eq. revert b.
  apply ignores_at_dbind; [done | intros [] _].
  apply ignores_at_dbind.
  - apply parse_options_rebind, Forall_forall. intros o Ho.
    specialize (Hschema o Ho). rewrite elem_of_app in Hschema. split.
    + tauto.
    + intros <-. exfalso. apply Hschema. right. by left.
  - intros options_list _.
    assert (Htail : ignores k
      (let* cmd_args := getitem "cmd_args" in
       let* args := py_split cmd_args in
       dret (options_list ++ args))).
    { apply ignores_dbind; [by apply ignores_getitem | intros cmd_args].
      apply ignores_dbind; [apply ignores_py_split | intros args].
      apply ignores_dret. }
    apply Htail.
Qed.

(** X6.  An auxiliary key that a call does not get to does not matter: the
    output template under the [id] and [title] formats, the second format
    when the first is ['0'], and the unit of a falsy threshold can be
    bound to anything, or be absent, without changing the result. *)
Theorem skipped_key_ignored config k binding :
  skips config k →
  compile (rebind k binding config) = compile config.
Proof.
  intros Hskip. apply compile_ignores; [| right; inversion Hskip; keys_solver].
  pose proof (tame_build_savepath config) as (F1 & _ & _).
  pose proof (tame_build_videoformat (_build_savepath config).1)
    as (F2 & _ & _).
  pose proof (tame_build_filesize "min_filesize" "min_filesize_unit"
                (_build_videoformat (_build_savepath config).1).1)
    as (F3 & _ & _).
  inversion Hskip as [fmt Hfmt Hor | first Hfirst Hne | size Hsize Hfalsy
                      | size Hsize Hfalsy]; subst;
    apply ignores_at_build_options.
  - by apply (ignores_at_build_savepath _ fmt).
  - apply ignores_build_videoformat. keys_solver.
  - by apply ignores_build_filesize.
  - by apply ignores_build_filesize.
  - apply ignores_build_savepath. keys_solver.
  - apply (ignores_at_build_videoformat _ first); [| done].
    rewrite F1; [done | keys_solver].
  - by apply ignores_build_filesize.
  - by apply ignores_build_filesize.
  - apply ignores_build_savepath. keys_solver.
  - apply ignores_build_videoformat. keys_solver.
  - apply (ignores_at_build_filesize _ _ _ size); [done | | done].
    rewrite F2, F1; [done | keys_solver | keys_solver].
  - by apply ignores_build_filesize.
  - apply ignores_build_savepath. keys_solver.
  - apply ignores_build_videoformat. keys_solver.
  - by apply ignores_build_filesize.
  - apply (ignores_at_build_filesize _ _ _ size); [done | | done].
    rewrite F3, F2, F1; [done | keys_solver | keys_solver | keys_solver].
Qed.

(** *** Thresholds and formats *)





Lemma append_cons x (a b : string) : String x a +:+ b = String x (a +:+ b).
Proof. reflexivity. Qed.

Lemma append_assoc (a b c : string) : (a +:+ b) +:+ c = a +:+ (b +:+ c).
Proof.
  induction a as [| x a IH]; [done |]. rewrite !append_cons. by rewrite IH.
Qed.



(** *** Passthrough tokens *)

Lemma has_space_snoc w c :
  has_space (w +:+ String c "") = has_space w || isspace c.
Proof.
  induction w as [| x w IH]; simpl; [by rewrite orb_false_r |].
  change (String x w +:+ String c "") with (String x (w +:+ String c "")).
  simpl. by rewrite IH, orb_assoc.
Qed.

Lemma split_from_shape word s :
  (∀ w, word = Some w → w ≠ "" ∧ has_space w = false) →
  Forall (λ token, token ≠ "" ∧ has_space token = false) (split_from word s).
Proof.
  revert word. induction s as [| c s IH]; intros word Hword; simpl.
  - destruct word as [w |]; simpl; [| constructor].
    repeat constructor; by apply Hword.
  - destruct (isspace c) eqn:Hc.
    + apply Forall_app. split; [| by apply IH].
      destruct word as [w |]; simpl; [| constructor].
      repeat constructor; by apply Hword.
    + apply IH. intros w Hw. destruct word as [w0 |]; simpl in Hw.
      * injection Hw as <-. destruct (Hword w0 eq_refl) as [_ Hs].
        split; [by destruct w0 |]. by rewrite has_space_snoc, Hs, Hc.
      * injection Hw as <-. split; [done |]. simpl. by rewrite Hc.
Qed.

Lemma split_from_app word a c b :
  isspace c = true →
  split_from word (a +:+ String c b) = split_from word a ++ split b.
Proof.
  intros Hc. revert word. induction a as [| x a IH]; intros word.
  - change ("" +:+ String c b) with (String c b). simpl. by rewrite Hc.
  - change (String x a +:+ String c b) with (String x (a +:+ String c b)).
    simpl. destruct (isspace x); [| apply IH].
    by rewrite IH, app_assoc.
Qed.

Lemma split_from_word word s :
  s ≠ "" → has_space s = false →
  split_from word s = [default "" word +:+ s].
Proof.
  revert word. induction s as [| c s IH]; intros word Hne Hs; [done |].
  simpl in Hs. apply orb_false_elim in Hs as [Hc Hs]. simpl. rewrite Hc.
  assert (Hext : default "" (extend word c) = default "" word +:+ String c "")
    by (by destruct word).
  destruct s as [| c' s].
  - by destruct word.
  - rewrite IH by done. rewrite Hext. by rewrite append_assoc.
Qed.

(** X10.  The passthrough tokens are never empty and never hold whitespace;
    a string without whitespace is one token, and the tokens of two
    strings put together with whitespace between them are the tokens of
    the first followed by those of the second. *)
Theorem split_tokens s a c b :
  Forall (λ token, token ≠ "" ∧ has_space token = false) (split s)
  ∧ (s ≠ "" → has_space s = false → split s = [s])
  ∧ (isspace c = true → split (a +:+ String c b) = split a ++ split b).
Proof.
  split; [| split].
  - by apply split_from_shape.
  - intros Hne Hs. unfold split. by rewrite split_from_word.
  - apply split_from_app.
Qed.

End Parser.

(** C9, amended.  The schema that a call walks has 28 entries. *)
Theorem schema_length : length ydl_options = 28%nat.
Proof. reflexivity. Qed.

(** ** The compiler on examples

    The examples run the parser with [strip_shortcuts], [posix_join] and
    [str_of_value] for its helpers. *)

Abbreviation compile_posix :=
  (compile strip_shortcuts posix_join str_of_value).
Abbreviation parse_posix :=
  (parse strip_shortcuts posix_join str_of_value).

(** The two schema entries the examples name are entries 23 and 25 of the
    schema. *)
Example embed_subs_option_in_schema :
  ydl_options !! 22%nat = Some embed_subs_option
  ∧ ydl_options !! 24%nat = Some audio_format_option.
Proof. split; reflexivity. Qed.

Example compile_default_config_tokens :
  compile_posix default_config = Ok ["--newline"; "-o"; "%(id)s.%(ext)s"].
Proof. vm_compute. reflexivity. Qed.

Example compile_without_audio_format :
  compile_posix (delete "audio_format" default_config)
  = Ok ["--newline"; "-o"; "%(id)s.%(ext)s"].
Proof. vm_compute. reflexivity. Qed.

Example compile_subs_config_tokens :
  compile_posix subs_config
  = Ok ["--newline"; "--write-sub"; "-o"; "%(id)s.%(ext)s"; "--embed-subs"].
Proof. vm_compute. reflexivity. Qed.

Example compile_values_and_arguments :
  compile_posix
    (<["save_path" := VStr "/home/user"]>
       (<["output_format" := VStr "title"]>
          (<["retries" := VInt 3]>
             (<["max_filesize" := VInt 5]>
                (<["max_filesize_unit" := VStr "MiB"]>
                   (<["video_format" := VStr "137"]>
                      (<["second_video_format" := VStr "140"]>
                         (<["cmd_args" := VStr " --no-mtime  -4 "]>
                            default_config))))))))
  = Ok ["--newline"; "-R"; "3"; "--max-filesize"; "5MiB"; "-o";
        "/home/user/%(title)s.%(ext)s"; "-f"; "137+140"; "--no-mtime"; "-4"].
Proof. vm_compute. reflexivity. Qed.

(** C2, as stated, fails: with the all-subtitles switch on, the write-subs
    switch off and [embed_subs] on, the requirement check of the
    embed-subtitles entry fails and the call emits no embed-subtitles
    flag; and with the write-subs switch on in a configuration that does
    not bind the write-auto-subs option, the check raises instead of
    succeeding; and with the write-subs switch and [embed_subs] on in a
    configuration without [cmd_args], the call raises and emits
    nothing. *)
Lemma embed_subs_not_enabled_by_all_subs :
  (truthy <$> all_subs_config !! "write_all_subs") = Some true
  ∧ (truthy <$> all_subs_config !! "write_subs") = Some false
  ∧ all_subs_config !! "embed_subs" = Some (VBool true)
  ∧ (check_requirements embed_subs_option all_subs_config).2 = Ok false
  ∧ compile_posix all_subs_config
    = Ok ["--newline"; "--all-subs"; "-o"; "%(id)s.%(ext)s"]
  ∧ ("--embed-subs" ∉ ["--newline"; "--all-subs"; "-o"; "%(id)s.%(ext)s"])
  ∧ (truthy <$> subs_only_config !! "write_subs") = Some true
  ∧ (check_requirements embed_subs_option subs_only_config).2
    = Raise (KeyError "write_auto_subs")
  ∧ (truthy <$> no_cmd_args_subs_config !! "write_subs") = Some true
  ∧ no_cmd_args_subs_config !! "embed_subs" = Some (VBool true)
  ∧ compile_posix no_cmd_args_subs_config = Raise (KeyError "cmd_args").
Proof.
  repeat split; try reflexivity.
  keys_solver.
Qed.

(** The amended C2 at [subs_config]. *)
Lemma embed_subs_requirements_witness :
  check_requirements embed_subs_option subs_config = (subs_config, Ok true)
  ∧ "--embed-subs"
    ∈ ["--newline"; "--write-sub"; "-o"; "%(id)s.%(ext)s"; "--embed-subs"].
Proof.
  destruct (embed_subs_requirements strip_shortcuts posix_join str_of_value
              subs_config (VBool false) (VBool true))
    as [Hcheck Hflag]; [reflexivity .. |].
  split; [exact Hcheck |].
  apply (Hflag (VBool true)); [reflexivity | | reflexivity].
  intros H. by apply py_eq_same in H.
Defined.

(** C5, as stated, fails: in [default_config] every schema option holds its
    default value, and the call returns the save-path flag and the derived
    save path besides the leading token and the (here absent) passthrough
    tokens. *)
Lemma default_config_emits_save_path :
  forallb (holds_default default_config) ydl_options = true
  ∧ default_config !! "cmd_args" = Some (VStr "")
  ∧ compile_posix default_config ≠ Ok (["--newline"] ++ split "").
Proof.
  split; [reflexivity |]. split; [reflexivity |].
  rewrite compile_default_config_tokens. discriminate.
Qed.

(** The amended C5 at [default_config]. *)
Lemma compile_default_config_witness :
  compile_posix default_config
  = Ok (["--newline"]
        ++ (if bool_decide (VStr "%(id)s.%(ext)s" = VStr "") then []
            else ["-o"; str_of_value (VStr "%(id)s.%(ext)s")])
        ++ split "").
Proof.
  apply (compile_default_config strip_shortcuts posix_join str_of_value
           default_config (VStr "") (VStr "%(id)s.%(ext)s"));
    reflexivity.
Defined.

(** C6, as stated, fails: [output_template] is a key of the save-path step,
    yet a configuration without it compiles when the output format is
    [id]. *)
Lemma missing_output_template_compiles :
  no_template_config !! "output_template" = None
  ∧ compile_posix no_template_config
    = Ok ["--newline"; "-o"; "%(id)s.%(ext)s"].
Proof. split; [reflexivity | vm_compute; reflexivity]. Qed.

(** The amended C6 at a configuration without [cmd_args]. *)
Lemma missing_key_raises_witness :
  (∃ k', compile_posix no_cmd_args_config = Raise (KeyError k')
         ∧ no_cmd_args_config !! k' = None)
  ∨ (compile_posix no_cmd_args_config = Raise OtherError
     ∧ ill_typed strip_shortcuts posix_join no_cmd_args_config).
Proof.
  apply (missing_key_raises strip_shortcuts posix_join str_of_value
           no_cmd_args_config "cmd_args").
  - apply reads_always. keys_solver.
  - reflexivity.
Defined.

Example compile_without_cmd_args :
  compile_posix no_cmd_args_config = Raise (KeyError "cmd_args").
Proof. vm_compute. reflexivity. Qed.

(** An ill-typed value makes an earlier step raise before the missing
    [cmd_args] is read: [5 + '+'] is a [TypeError]. *)
Example compile_ill_typed_without_cmd_args :
  compile_posix
    (<["video_format" := VInt 5]>
       (<["second_video_format" := VStr "140"]> no_cmd_args_config))
  = Raise OtherError.
Proof. vm_compute. reflexivity. Qed.

(** C7 at two calls on the one dictionary of [one_config_store]. *)
Lemma parse_deterministic_witness :
  (parse_posix 1
     (parse_posix 1 one_config_store).1).2
  = (parse_posix 1 one_config_store).2.
Proof.
  apply (parse_deterministic strip_shortcuts posix_join str_of_value
           one_config_store 1 1 default_config);
    reflexivity.
Defined.

(** C8 at [one_config_store]. *)
Lemma parse_preserves_input_witness :
  (parse_posix 1 one_config_store).1
    !! 1%positive = Some default_config.
Proof.
  apply (proj1 (parse_preserves_input strip_shortcuts posix_join str_of_value
                  one_config_store 1 default_config eq_refl)).
Defined.

(** C10 at the audio-format entry: with [to_audio] off, the call on
    [default_config] without [audio_format] returns what it returns on
    [default_config]. *)
Lemma gated_key_not_read_witness :
  compile_posix (rebind "audio_format" None default_config)
  = compile_posix default_config.
Proof.
  assert (Hin : audio_format_option ∈ ydl_options)
    by (unfold ydl_options, audio_format_option; keys_solver).
  assert (Hunsat : requirementsSatisfied audio_format_option default_config
                   = false)
    by reflexivity.
  apply (proj1 (gated_key_not_read strip_shortcuts posix_join str_of_value
                  default_config audio_format_option ["to_audio"]
                  Hin eq_refl Hunsat)).
Defined.

(** C9, as stated, fails: the schema does not have 30 entries. *)
Lemma schema_length_not_30 : length ydl_options ≠ 30%nat.
Proof. discriminate. Qed.

(** * The download item: facts *)

Example to_bytes_mebibytes :
  to_bytes "9.45MiB" = Some (Qred 9909043.20).
Proof. vm_compute. reflexivity. Qed.

Example to_bytes_malformed : to_bytes "9.45 megabytes" = None.
Proof. vm_compute. reflexivity. Qed.

(** The expectations of [TestUpdateStats.test_update_stats]. *)
Example test_update_stats :
  let item := update_stats stats_first (new_item "url" ["-f"; "flv"]) in
  let item' := update_stats stats_third (update_stats stats_second item) in
  path item = "/home/user"
  ∧ filenames item = ["somefilename"]
  ∧ extensions item = [".mp4"]
  ∧ Forall2 Qeq (filesizes item) [9909043.20%Q]
  ∧ stage item = Active
  ∧ progress_stats item
    = mkStats "somefilename" ".mp4" "9.45MiB" "2.0%" "200.00KiB/s" "00:38"
        "Downloading" "10" "1"
  ∧ filenames item' = ["somefilename"; "someotherfilename"]
  ∧ extensions item' = [".mp4"; ".m4a"]
  ∧ Forall2 Qeq (filesizes item') [9909043.20%Q; 2097152.00%Q]
  ∧ progress_stats item'
    = mkStats "someotherfilename" ".m4a" "2.00MiB" "65.0%" "200.00KiB/s"
        "00:38" "Downloading" "10" "2".
Proof.
  vm_compute. repeat split; repeat constructor.
Qed.

(** The expectation of [TestUpdateStats.test_update_stats_empty_strings]. *)
Example test_update_stats_empty_strings :
  progress_stats (update_stats stats_empty (new_item "url" ["-f"; "flv"]))
  = default_stats "url".
Proof. vm_compute. reflexivity. Qed.

(** The expectations of [TestDownloadItemPrivate.test_set_stage]. *)
Example test_set_stage :
  Forall (λ status, stage_of_status status Queued = Active)
    ["Pre Processing"; "Downloading"; "Post Processing"]
  ∧ Forall (λ status, stage_of_status status Queued = Completed)
      ["Finished"; "Warning"; "Already Downloaded"]
  ∧ Forall (λ status, stage_of_status status Queued = Error)
      ["Error"; "Stopped"; "Filesize Abort"].
Proof. repeat split; repeat constructor. Qed.

(** The updates of [TestDownloadItemPrivate.test_calc_post_proc_size] under
    the words of the specification: the post-merge step replaces the last
    recorded size by the sum, and an empty [speed] or [eta] keeps the
    current text.  The test file expects a third recorded size,
    14103347.20, after the first two, and ["-"] for [speed] and [eta]. *)
Example test_calc_post_proc_size :
  let item :=
    update_stats stats_post_processing
      (update_stats stats_audio
         (update_stats stats_video (new_item "url" ["-f"; "flv"]))) in
  Forall2 Qeq (filesizes item) [10485760.00%Q; 14103347.20%Q]
  ∧ filenames item = ["file.f123"; "file.f456"; "file"]
  ∧ progress_stats item
    = mkStats "file" ".webm" "13.45MiB" "100%" "222.22KiB/s" "N/A"
        "Post Processing" "" "".
Proof.
  vm_compute. repeat split; repeat constructor.
Qed.







(** C4.  [reset] on an item whose stage is [Active] fails with
    [IllegalReset]; in every other stage it returns the item with stage
    [Queued], an empty path, empty sequences of filenames, extensions and
    sizes, and the snapshot of a freshly constructed item. *)
Theorem reset_spec item :
  (stage item = Active → reset item = inl IllegalReset)
  ∧ (stage item ≠ Active →
     ∃ item',
       reset item = inr item'
       ∧ stage item' = Queued
       ∧ path item' = ""
       ∧ filenames item' = []
       ∧ extensions item' = []
       ∧ filesizes item' = []
       ∧ progress_stats item' = default_stats (url item)
       ∧ item' = new_item (url item) (options item)).
Proof.
  unfold reset. split.
  - by intros ->.
  - intros Hstage. eexists. split; [by destruct (stage item) |].
    by repeat split.
Qed.

(** C4 at the items of [TestReset]. *)
Lemma reset_spec_witness :
  reset completed_item = inr (new_item "url" ["-f"; "flv"])
  ∧ reset active_item = inl IllegalReset.
Proof.
  split.
  - destruct (proj2 (reset_spec completed_item)) as (item' & -> & H);
      [discriminate |].
    f_equal. apply H.
  - apply (proj1 (reset_spec active_item)). reflexivity.
Defined.

(** * utils: facts *)

(** ** Splitting and joining *)


Lemma str_split_nonempty sep s : str_split sep s ≠ [].
Proof.
  destruct s as [| c rest]; simpl; [done |].
  destruct (Ascii.eqb c sep); [done |].
  by destruct (str_split sep rest).
Qed.

Lemma str_join_cons sep piece rest :
  rest ≠ [] → str_join sep (piece :: rest) = piece +:+ String sep (str_join sep rest).
Proof. by destruct rest. Qed.

Lemma str_join_split sep s : str_join sep (str_split sep s) = s.
Proof.
  induction s as [| c rest IH]; simpl; [done |].
  destruct (Ascii.eqb c sep) eqn:E.
  - apply Ascii.eqb_eq in E as ->.
    rewrite str_join_cons by apply str_split_nonempty.
    simpl. by rewrite IH.
  - pose proof (str_split_nonempty sep rest) as Hne.
    destruct (str_split sep rest) as [| piece pieces]; [done |].
    destruct pieces as [| piece' pieces].
    + simpl in *. by rewrite IH.
    + rewrite str_join_cons by done. rewrite str_join_cons in IH by done.
      by rewrite <- IH.
Qed.

Lemma str_split_pieces sep s :
  Forall (λ piece, has_char sep piece = false) (str_split sep s).
Proof.
  induction s as [| c rest IH]; simpl; [by repeat constructor |].
  destruct (Ascii.eqb c sep) eqn:E; [by constructor |].
  destruct (str_split sep rest) as [| piece pieces];
    [repeat constructor; simpl; by rewrite E |].
  inversion IH; subst. constructor; [| done]. simpl. by rewrite E.
Qed.

Lemma str_split_whole sep s : has_char sep s = false → str_split sep s = [s].
Proof.
  induction s as [| c rest IH]; simpl; [done |].
  intros [Hc Hrest]%orb_false_elim. rewrite Hc, IH; done.
Qed.

Lemma str_split_app sep a b :
  str_split sep (a +:+ String sep b) = str_split sep a ++ str_split sep b.
Proof.
  induction a as [| c rest IH]; simpl.
  - by rewrite Ascii.eqb_refl.
  - destruct (Ascii.eqb c sep); [by rewrite IH |].
    rewrite IH. pose proof (str_split_nonempty sep rest) as Hne.
    by destruct (str_split sep rest).
Qed.

Lemma str_split_join sep pieces :
  pieces ≠ [] →
  str_split sep (str_join sep pieces) = flat_map (str_split sep) pieces.
Proof.
  induction pieces as [| piece rest IH]; [done |]. intros _.
  destruct rest as [| piece' rest].
  - simpl. by rewrite app_nil_r.
  - rewrite str_join_cons by done. rewrite str_split_app, IH by done. done.
Qed.

Lemma ends_with_app c s : ends_with c (s +:+ String c "") = true.
Proof.
  induction s as [| x rest IH]; simpl; [apply Ascii.eqb_refl |].
  rewrite IH. by destruct rest.
Qed.

Lemma ends_with_inv c s : ends_with c s = true → ∃ a, s = a +:+ String c "".
Proof.
  induction s as [| x rest IH]; simpl; [done |].
  destruct rest as [| y rest].
  - intros ->%Ascii.eqb_eq. by exists "".
  - intros [a Ha]%IH. exists (String x a). simpl. by rewrite Ha.
Qed.

Lemma str_join_snoc sep pieces :
  pieces ≠ [] →
  str_join sep (pieces ++ [""]) = str_join sep pieces +:+ String sep "".
Proof.
  induction pieces as [| piece rest IH]; [done |]. intros _.
  destruct rest as [| piece' rest]; [done |].
  rewrite <- app_comm_cons, !str_join_cons by done.
  rewrite IH by done. by rewrite append_assoc.
Qed.

Lemma append_snoc_inj c (a b : string) :
  a +:+ String c "" = b +:+ String c "" → a = b.
Proof.
  revert b. induction a as [| x a IH]; intros [| y b]; rewrite ?append_cons.
  - done.
  - intros [= -> H]. by destruct b.
  - intros [= -> H]. by destruct a.
  - intros [= -> H]. f_equal. by apply IH.
Qed.

(** ** fix_path *)

(** The replacement of the home shortcut that [fix_path] applies to each
    piece. *)
Lemma expand_id home pieces :
  "~" ∉ pieces →
  map (λ item, if String.eqb item "~" then home else item) pieces = pieces.
Proof.
  induction pieces as [| piece rest IH]; simpl; [done |].
  intros [Hne Hrest]%not_elem_of_cons.
  rewrite IH by done. destruct (String.eqb piece "~") eqn:E; [| done].
  apply String.eqb_eq in E. congruence.
Qed.

Lemma fix_path_nonempty_eq os_type home path :
  path ≠ "" →
  ∃ stem,
    (if ends_with (path_seperator os_type) path then path
     else path +:+ String (path_seperator os_type) "")
    = stem +:+ String (path_seperator os_type) ""
    ∧ fix_path os_type home path
      = str_join (path_seperator os_type)
          (map (λ item, if String.eqb item "~" then home else item)
             (str_split (path_seperator os_type) stem))
        +:+ String (path_seperator os_type) "".
Proof.
  intros Hne. unfold fix_path.
  destruct (String.eqb path "") eqn:E; [by apply String.eqb_eq in E |].
  set (sep := path_seperator os_type).
  assert (∃ stem,
    (if ends_with sep path then path else path +:+ String sep "")
    = stem +:+ String sep "") as [stem Hstem].
  { destruct (ends_with sep path) eqn:Hend; [by apply ends_with_inv | eauto]. }
  exists stem. split; [done |]. cbv zeta. rewrite Hstem.
  rewrite str_split_app. change (str_split sep "") with [""].
  rewrite map_app. change (map _ [""]) with [""].
  apply str_join_snoc.
  pose proof (str_split_nonempty sep stem). by destruct (str_split sep stem).
Qed.

Lemma fix_path_ends os_type home path :
  path ≠ "" →
  ends_with (path_seperator os_type) (fix_path os_type home path) = true.
Proof.
  intros Hne.
  destruct (fix_path_nonempty_eq os_type home path Hne) as (stem & _ & ->).
  apply ends_with_app.
Qed.

(** X11: [fix_path] returns the empty path as it is and every other path
    with the separator at its end. *)
Theorem fix_path_ends_with_separator os_type home path :
  fix_path os_type home "" = ""
  ∧ (path ≠ "" →
     ends_with (path_seperator os_type) (fix_path os_type home path) = true).
Proof. split; [done | apply fix_path_ends]. Qed.

Lemma fix_path_plain os_type home path :
  path ≠ "" →
  "~" ∉ str_split (path_seperator os_type) path →
  fix_path os_type home path
  = if ends_with (path_seperator os_type) path then path
    else path +:+ String (path_seperator os_type) "".
Proof.
  intros Hne Hno.
  destruct (fix_path_nonempty_eq os_type home path Hne) as (stem & Hstem & ->).
  set (sep := path_seperator os_type) in *.
  assert (Hstem_no : "~" ∉ str_split sep stem).
  { destruct (ends_with sep path).
    - subst path. rewrite str_split_app in Hno.
      intros Hin. apply Hno, elem_of_app. by left.
    - apply append_snoc_inj in Hstem. by subst. }
  rewrite expand_id, str_join_split by done. by rewrite Hstem.
Qed.

(** X12: on a path without a [~] piece, [fix_path] only appends the
    separator when it is missing. *)
Theorem fix_path_without_shortcut os_type home path :
  path ≠ "" →
  "~" ∉ str_split (path_seperator os_type) path →
  fix_path os_type home path
  = if ends_with (path_seperator os_type) path then path
    else path +:+ String (path_seperator os_type) "".
Proof. apply fix_path_plain. Qed.

Lemma has_char_tilde_free sep piece :
  has_char sep piece = false → piece ≠ "~" → "~" ∉ str_split sep piece.
Proof.
  intros Hno Hne. rewrite str_split_whole by done.
  intros H%list_elem_of_singleton. congruence.
Qed.

(** X13: when the home directory has no [~] piece, the path [fix_path]
    returns has none either, and [fix_path] returns it unchanged when
    applied again. *)
Theorem fix_path_idempotent os_type home path :
  "~" ∉ str_split (path_seperator os_type) home →
  ("~" ∉ str_split (path_seperator os_type) (fix_path os_type home path))
  ∧ fix_path os_type home (fix_path os_type home path)
    = fix_path os_type home path.
Proof.
  intros Hhome.
  destruct (decide (path = "")) as [-> | Hne].
  { split; [| done]. simpl. by intros [=]%list_elem_of_singleton. }
  assert (Hfree : "~" ∉ str_split (path_seperator os_type)
                          (fix_path os_type home path)).
  { destruct (fix_path_nonempty_eq os_type home path Hne) as (stem & _ & ->).
    set (sep := path_seperator os_type) in *.
    rewrite str_split_app. change (str_split sep "") with [""].
    pose proof (str_split_nonempty sep stem) as Hnil.
    pose proof (str_split_pieces sep stem) as Hpieces.
    rewrite str_split_join by (by destruct (str_split sep stem)).
    intros [Hin | [=]%list_elem_of_singleton]%elem_of_app.
    apply list_elem_of_In, in_flat_map in Hin as (item & Hitem & Hin).
    apply in_map_iff in Hitem as (piece & <- & Hpiece).
    apply list_elem_of_In in Hin, Hpiece.
    rewrite Forall_forall in Hpieces. specialize (Hpieces piece Hpiece).
    destruct (String.eqb piece "~") eqn:E; [done |].
    apply String.eqb_neq in E. by apply (has_char_tilde_free sep piece). }
  split; [done |].
  pose proof (fix_path_ends os_type home path Hne) as Hend.
  rewrite fix_path_plain; [by rewrite Hend | | done].
  intros Heq. by rewrite Heq in Hend.
Qed.

(** ** get_filename *)

Lemma get_filename_pieces os_type path :
  get_filename os_type path ∈ str_split (path_seperator os_type) path.
Proof.
  unfold get_filename.
  pose proof (str_split_nonempty (path_seperator os_type) path) as Hne.
  destruct (str_split _ path) as [| piece pieces] using rev_ind; [done |].
  rewrite last_snoc. simpl. apply elem_of_app. right. by left.
Qed.

(** X14: [get_filename] returns what follows the last separator: it takes
    [name] out of [directory + separator + name] when [name] has no
    separator, and what it returns never has one. *)
Theorem get_filename_last_piece os_type directory name path :
  (has_char (path_seperator os_type) name = false →
   get_filename os_type (directory +:+ String (path_seperator os_type) name)
   = name)
  ∧ has_char (path_seperator os_type) (get_filename os_type path) = false.
Proof.
  split.
  - intros Hname. unfold get_filename.
    rewrite str_split_app. rewrite (str_split_whole _ name) by done.
    by rewrite last_snoc.
  - pose proof (str_split_pieces (path_seperator os_type) path) as Hpieces.
    rewrite Forall_forall in Hpieces. apply Hpieces, get_filename_pieces.
Qed.

(** X15: the path [fix_path] returns names a directory: [get_filename]
    finds no file name in it. *)
Theorem get_filename_fix_path os_type home path :
  get_filename os_type (fix_path os_type home path) = "".
Proof.
  destruct (decide (path = "")) as [-> | Hne]; [done |].
  destruct (fix_path_nonempty_eq os_type home path Hne) as (stem & _ & ->).
  unfold get_filename. rewrite str_split_app.
  change (str_split (path_seperator os_type) "") with [""].
  by rewrite last_snoc.
Qed.

(** ** get_time *)

Lemma get_time_sum secs :
  days (get_time secs) * 86400 + hours (get_time secs) * 3600
  + minutes (get_time secs) * 60 + seconds (get_time secs) = secs.
Proof.
  unfold get_time.
  destruct (secs <? 60); [simpl; lia |].
  destruct (secs <? 3600); [simpl; pose proof (Z.div_mod secs 60); lia |].
  destruct (secs <? 86400); simpl.
  - pose proof (Z.div_mod secs 3600). pose proof (Z.div_mod (secs mod 3600) 60).
    lia.
  - pose proof (Z.div_mod secs 86400).
    pose proof (Z.div_mod (secs mod 86400) 3600).
    pose proof (Z.div_mod (secs mod 86400 mod 3600) 60). lia.
Qed.

(** X16: the four fields [get_time] returns add up to the number of seconds
    it was given, whatever its sign. *)
Theorem get_time_total secs :
  days (get_time secs) * 86400 + hours (get_time secs) * 3600
  + minutes (get_time secs) * 60 + seconds (get_time secs) = secs.
Proof. apply get_time_sum. Qed.

Lemma get_time_ranges secs :
  0 ≤ secs →
  0 ≤ seconds (get_time secs) < 60
  ∧ 0 ≤ minutes (get_time secs) < 60
  ∧ 0 ≤ hours (get_time secs) < 24
  ∧ 0 ≤ days (get_time secs).
Proof.
  intros Hpos. unfold get_time.
  destruct (Z.ltb_spec secs 60); [simpl; lia |].
  destruct (Z.ltb_spec secs 3600); simpl.
  { pose proof (Z.mod_pos_bound secs 60).
    pose proof (Z.div_mod secs 60). lia. }
  destruct (Z.ltb_spec secs 86400); simpl.
  - pose proof (Z.mod_pos_bound secs 3600).
    pose proof (Z.mod_pos_bound (secs mod 3600) 60).
    pose proof (Z.div_mod secs 3600).
    pose proof (Z.div_mod (secs mod 3600) 60). lia.
  - pose proof (Z.mod_pos_bound secs 86400).
    pose proof (Z.mod_pos_bound (secs mod 86400) 3600).
    pose proof (Z.mod_pos_bound (secs mod 86400 mod 3600) 60).
    pose proof (Z.div_mod secs 86400).
    pose proof (Z.div_mod (secs mod 86400) 3600).
    pose proof (Z.div_mod (secs mod 86400 mod 3600) 60). lia.
Qed.

(** X17: for a number of seconds that is not negative the fields are in
    range: seconds and minutes below 60, hours below 24, none negative. *)
Theorem get_time_bounds secs :
  0 ≤ secs →
  0 ≤ seconds (get_time secs) < 60
  ∧ 0 ≤ minutes (get_time secs) < 60
  ∧ 0 ≤ hours (get_time secs) < 24
  ∧ 0 ≤ days (get_time secs).
Proof. apply get_time_ranges. Qed.

(** X18: [get_time] inverts the count of seconds: from the seconds that
    in-range fields add up to it returns those fields. *)
Theorem get_time_of_fields s m h d :
  0 ≤ s < 60 → 0 ≤ m < 60 → 0 ≤ h < 24 → 0 ≤ d →
  get_time (d * 86400 + h * 3600 + m * 60 + s) = mkDtime s m h d.
Proof.
  intros Hs Hm Hh Hd.
  set (secs := d * 86400 + h * 3600 + m * 60 + s).
  pose proof (get_time_sum secs) as Htotal.
  assert (0 ≤ secs) as Hpos by lia.
  pose proof (get_time_ranges secs Hpos) as (Bs & Bm & Bh & Bd).
  destruct (get_time secs) as [s' m' h' d']. simpl in *.
  assert (d' = d) by lia. assert (h' = h) by lia. assert (m' = m) by lia.
  assert (s' = s) by lia. by subst.
Qed.

(** ** video_is_dash *)

Lemma starts_with_iff p s : starts_with p s = true ↔ ∃ rest, s = p +:+ rest.
Proof.
  revert s. induction p as [| x p IH]; intros s.
  - split; [by exists s | done].
  - destruct s as [| y s]; simpl.
    { split; [done | by intros [rest [=]]]. }
    rewrite andb_true_iff, Ascii.eqb_eq, IH. split.
    + intros [-> [rest ->]]. by exists rest.
    + intros [rest Hrest]. rewrite append_cons in Hrest.
      injection Hrest as -> ->. eauto.
Qed.

Lemma str_contains_iff needle hay :
  str_contains needle hay = true
  ↔ ∃ before after, hay = before +:+ needle +:+ after.
Proof.
  induction hay as [| c hay IH]; simpl.
  - rewrite orb_false_r, starts_with_iff. split.
    + intros [rest Hrest]. by exists "", rest.
    + intros ([| x before] & after & Heq); [by exists after | done].
  - rewrite orb_true_iff, starts_with_iff, IH. split.
    + intros [[rest Hrest] | (before & after & ->)].
      * by exists "", rest.
      * by exists (String c before), after.
    + intros ([| x before] & after & Heq).
      * left. by exists after.
      * right. rewrite append_cons in Heq. injection Heq as -> ->.
        by exists before, after.
Qed.

(** X19: [video_is_dash] holds exactly of the texts in which the letters
    [DASH] occur, in upper case, anywhere. *)
Theorem video_is_dash_iff video :
  video_is_dash video = true
  ↔ ∃ before after, video = before +:+ "DASH" +:+ after.
Proof. apply str_contains_iff. Qed.

(** ** get_icon_path *)

Lemma find_app {A} (f : A → bool) (l1 l2 : list A) :
  find f (l1 ++ l2)
  = match find f l1 with
    | Some x => Some x
    | None => find f l2
    end.
Proof.
  induction l1 as [| x l1 IH]; simpl; [done |]. by destruct (f x).
Qed.

Lemma find_holds {A} (f : A → bool) (l : list A) x :
  find f l = Some x → f x = true.
Proof. by intros [_ ?]%find_some. Qed.

Lemma find_nowhere {A} (f : A → bool) (l : list A) :
  (∀ x, f x = false) → find f l = None.
Proof.
  intros Hf. induction l as [| x l IH]; simpl; [done |]. by rewrite Hf.
Qed.

Section IconFacts.

Variable os_type home package_path appname : string.
Variable appdata xdg_data_dirs : option string.
Variable file_exist : string → bool.

(** X20: an icon path that [get_icon_path] returns is the path of a file
    that exists. *)
Theorem get_icon_path_exists p :
  get_icon_path os_type home package_path appname appdata xdg_data_dirs
    file_exist = Ok (Some p) →
  file_exist p = true.
Proof.
  unfold get_icon_path.
  destruct (find file_exist (package_icons _ _ _)) eqn:E1;
    [intros [= <-]; exact (find_holds _ _ _ E1) |].
  destruct (get_user_config_path _ _ _) as [config_path |]; [| done].
  destruct (find file_exist (settings_icons _ _ _ _)) eqn:E2;
    [intros [= <-]; exact (find_holds _ _ _ E2) |].
  destruct (find file_exist (home_icons _ _)) eqn:E3;
    [intros [= <-]; exact (find_holds _ _ _ E3) |].
  destruct xdg_data_dirs as [data_dirs |]; [| done].
  destruct (find file_exist (xdg_icons _ _ _)) eqn:E4;
    [intros [= <-]; exact (find_holds _ _ _ E4) |].
  intros H. apply (find_holds file_exist pixmaps_icons). congruence.
Qed.

(** X21: when the settings directory is known and [XDG_DATA_DIRS] is set,
    [get_icon_path] returns the first file that exists among the icons of
    the package directories, the settings directory, [$HOME/.icons], the
    XDG directories and [/usr/share/pixmaps], in this order, and nothing
    when none of them exists. *)
Theorem get_icon_path_first config_path data_dirs :
  get_user_config_path os_type home appdata = Some config_path →
  xdg_data_dirs = Some data_dirs →
  get_icon_path os_type home package_path appname appdata xdg_data_dirs
    file_exist
  = Ok (find file_exist
          (package_icons os_type home package_path
           ++ settings_icons os_type home appname config_path
           ++ home_icons os_type home
           ++ xdg_icons os_type home data_dirs
           ++ pixmaps_icons)).
Proof.
  intros Hconfig Hxdg. unfold get_icon_path. rewrite Hconfig, Hxdg.
  rewrite !find_app. by repeat case_match.
Qed.

(** X22: when [XDG_DATA_DIRS] is not set, [get_icon_path] returns the
    first file that exists among the icons of the package directories,
    the settings directory and [$HOME/.icons] (the package directories
    alone when the settings directory is not known), and raises when none
    of them exists: it never reports that there is no icon, and the icons
    of [/usr/share/pixmaps] are not among the files it looks for. *)
Theorem get_icon_path_without_xdg :
  xdg_data_dirs = None →
  get_icon_path os_type home package_path appname appdata xdg_data_dirs
    file_exist
  = match
      find file_exist
        (package_icons os_type home package_path
         ++ match get_user_config_path os_type home appdata with
            | Some config_path =>
                settings_icons os_type home appname config_path
                ++ home_icons os_type home
            | None => []
            end)
    with
    | Some p => Ok (Some p)
    | None => Raise OtherError
    end.
Proof.
  intros Hxdg. unfold get_icon_path. rewrite Hxdg.
  rewrite find_app.
  destruct (find file_exist (package_icons _ _ _)); [done |].
  destruct (get_user_config_path _ _ _) as [config_path |]; [| done].
  rewrite find_app.
  destruct (find file_exist (settings_icons _ _ _ _)); [done |].
  by destruct (find file_exist (home_icons _ _)).
Qed.

End IconFacts.

(** * Examples for the utilities and the further facts of the parser *)

Lemma complete_config_no_key_error_witness :
  (∃ tokens, compile_posix default_config = Ok tokens)
  ∨ compile_posix default_config = Raise OtherError.
Proof.
  apply (complete_config_no_key_error strip_shortcuts posix_join
           str_of_value default_config).
  unfold config_keys, ydl_options. simpl. repeat constructor; by eexists.
Defined.

Lemma derivation_frame_witness :
  dom (<["save_path" := VStr "%(id)s.%(ext)s"]> default_config)
  = dom default_config
  ∧ (∀ k, k ∉ written →
       <["save_path" := VStr "%(id)s.%(ext)s"]> default_config !! k
       = default_config !! k).
Proof.
  apply (derivation_frame strip_shortcuts posix_join str_of_value).
  reflexivity.
Defined.

Lemma empty_requirements_never_emitted_witness :
  parse_option str_of_value no_requirement_option ["--newline"]
    (<["keep_video" := VBool true]> default_config)
  = (<["keep_video" := VBool true]> default_config, Ok ["--newline"]).
Proof.
  apply (empty_requirements_never_emitted str_of_value). reflexivity.
Defined.

Lemma requirements_all_read_witness :
  check_requirements embed_subs_option auto_subs_only_config
  = (auto_subs_only_config, Raise (KeyError "write_subs"))
  ∧ requirementsSatisfied embed_subs_option auto_subs_only_config = true.
Proof.
  apply (requirements_all_read embed_subs_option
           ["write_auto_subs"; "write_subs"] auto_subs_only_config
           "write_subs" "write_auto_subs" (VBool true));
    try reflexivity.
  keys_solver.
Defined.

Lemma compile_length_witness :
  ∃ args,
    default_config !! "cmd_args" = Some (VStr args)
    ∧ ["--newline"; "-o"; "%(id)s.%(ext)s"] !! 0%nat = Some "--newline"
    ∧ (1 + length (split args)
       ≤ length ["--newline"; "-o"; "%(id)s.%(ext)s"]
       ≤ 46 + length (split args))%nat.
Proof.
  apply (compile_length strip_shortcuts posix_join str_of_value
           default_config).
  vm_compute. reflexivity.
Defined.

Lemma skipped_key_ignored_witness :
  compile_posix (rebind "output_template" None default_config)
  = compile_posix default_config.
Proof.
  apply (skipped_key_ignored strip_shortcuts posix_join str_of_value).
  by apply (skips_output_template _ (VStr "id")).
Defined.



(** The call on [blank_max_size_config] passes the empty value on. *)
Example compile_blank_max_size :
  compile_posix blank_max_size_config
  = Ok ["--newline"; "--max-filesize"; ""; "-o"; "%(id)s.%(ext)s"].
Proof. vm_compute. reflexivity. Qed.


Lemma split_tokens_witness :
  split "--no-mtime" = ["--no-mtime"]
  ∧ split ("-4" +:+ String " " " --no-mtime")
    = split "-4" ++ split " --no-mtime".
Proof.
  destruct (split_tokens "--no-mtime" "-4" " "%char " --no-mtime")
    as (_ & Hone & Happ).
  split; [by apply Hone | by apply Happ].
Defined.

Lemma get_time_bounds_witness :
  0 ≤ seconds (get_time 200000) < 60
  ∧ 0 ≤ minutes (get_time 200000) < 60
  ∧ 0 ≤ hours (get_time 200000) < 24
  ∧ 0 ≤ days (get_time 200000).
Proof. apply get_time_bounds. lia. Defined.

Example get_time_200000 : get_time 200000 = mkDtime 20 33 7 2.
Proof. reflexivity. Qed.

Lemma get_time_of_fields_witness :
  get_time (2 * 86400 + 7 * 3600 + 33 * 60 + 20) = mkDtime 20 33 7 2.
Proof. apply get_time_of_fields; lia. Defined.

Lemma fix_path_ends_with_separator_witness :
  ends_with (path_seperator "posix") (fix_path "posix" "/home/user" "~/videos")
  = true.
Proof.
  apply (proj2 (fix_path_ends_with_separator "posix" "/home/user" "~/videos")).
  discriminate.
Defined.

Example fix_path_home :
  fix_path "posix" "/home/user" "~/videos" = "/home/user/videos/".
Proof. reflexivity. Qed.

Lemma fix_path_without_shortcut_witness :
  fix_path "nt" "C:\Users\me" "D:\videos"
  = if ends_with (path_seperator "nt") "D:\videos" then "D:\videos"
    else "D:\videos" +:+ String (path_seperator "nt") "".
Proof.
  apply fix_path_without_shortcut; [discriminate |].
  refine (bool_decide_unpack _ _). vm_compute. exact I.
Defined.

Example fix_path_windows :
  fix_path "nt" "C:\Users\me" "D:\videos" = "D:\videos\".
Proof. reflexivity. Qed.

Lemma fix_path_idempotent_witness :
  ("~" ∉ str_split (path_seperator "posix")
           (fix_path "posix" "/home/user" "~/videos/~"))
  ∧ fix_path "posix" "/home/user" (fix_path "posix" "/home/user" "~/videos/~")
    = fix_path "posix" "/home/user" "~/videos/~".
Proof.
  apply fix_path_idempotent.
  refine (bool_decide_unpack _ _). vm_compute. exact I.
Defined.

Lemma get_filename_last_piece_witness :
  get_filename "posix" ("/home/user" +:+ String (path_seperator "posix") "a.mp4")
  = "a.mp4".
Proof.
  apply (proj1 (get_filename_last_piece "posix" "/home/user" "a.mp4" "")).
  reflexivity.
Defined.

Lemma get_icon_path_exists_witness :
  only_pixmaps_icon "/usr/share/pixmaps/youtube-dl-gui_64x64.png" = true.
Proof.
  apply (get_icon_path_exists "posix" "/home/user" "/opt/youtube_dl_gui"
           "youtube-dlg" None (Some "/usr/share") only_pixmaps_icon).
  vm_compute. reflexivity.
Defined.

Lemma get_icon_path_first_witness :
  get_icon_path "posix" "/home/user" "/opt/youtube_dl_gui" "youtube-dlg" None
    (Some "/usr/local/share:/usr/share") only_pixmaps_icon
  = Ok (find only_pixmaps_icon
          (package_icons "posix" "/home/user" "/opt/youtube_dl_gui"
           ++ settings_icons "posix" "/home/user" "youtube-dlg"
                "/home/user/.config"
           ++ home_icons "posix" "/home/user"
           ++ xdg_icons "posix" "/home/user" "/usr/local/share:/usr/share"
           ++ pixmaps_icons)).
Proof.
  apply get_icon_path_first; reflexivity.
Defined.

(** Without [XDG_DATA_DIRS] the icon under [/usr/share/pixmaps] is not
    found. *)
Lemma get_icon_path_without_xdg_witness :
  get_icon_path "posix" "/home/user" "/opt/youtube_dl_gui" "youtube-dlg"
    None None only_pixmaps_icon
  = Raise OtherError.
Proof.
  rewrite (get_icon_path_without_xdg "posix" "/home/user"
             "/opt/youtube_dl_gui" "youtube-dlg" None None
             only_pixmaps_icon eq_refl).
  reflexivity.
Defined.
